(** * Virtual CNC machine: from a raster image to a turtle toolpath

    A shallow embedding of [project_cnc.py] (class [CNCMachine]) and the
    properties of its geometry pipeline:

      edge_detection -> extract_contours -> scale_coordinates -> draw_toolpath

    Conventions of the embedding.
    - Python [int] and numpy [int32] values are [Z]; [len] is [length] (a [nat]).
    - Python [float] / numpy [float64] values are Rocq's primitive binary64
      floats ([PrimFloat.float]), whose operations are the IEEE 754
      round-to-nearest-even ones Python uses.
    - The turtle objects ([self.tool], [self.status]) and the console are an
      explicit machine state; every method of [CNCMachine] that touches them is
      a computation in a state-and-exception monad.  Effects performed before
      an exception is raised stay in the state, as in Python.
    - OpenCV ([cv2]) is an external library: the functions the program calls
      are the fields of the class [OpenCV]; [cv2.contourArea] and Python's
      [sorted] are modelled concretely. *)

From Stdlib Require Import String.
From Stdlib Require Import ZArith QArith Qabs Lia List Bool Floats.
From Stdlib Require Import Permutation Sorted.
From Stdlib Require Uint63.
Import ListNotations.

Local Open Scope Z_scope.

(* ================================================================== *)
(** * Part 1. The program *)
(* ================================================================== *)

(** ** Numbers *)

(** Conversion of an integer to a float, as Python does when an [int] (or a
    numpy [int32]) meets a float in an arithmetic operation.  The conversion
    goes through a 63-bit machine integer: it is the Python one for
    [|z| < 2^63], which covers numpy's [int32] pixel coordinates and every
    entry of an array shape. *)
Definition Z2F (z : Z) : float :=
  match z with
  | Z0 => 0%float
  | Zpos p => PrimFloat.of_uint63 (Uint63.of_Z (Zpos p))
  | Zneg p => (- PrimFloat.of_uint63 (Uint63.of_Z (Zpos p)))%float
  end.

(** A float that is neither an infinity nor a NaN. *)
Definition is_finite (f : float) : bool :=
  match classify f with
  | NaN | PInf | NInf => false
  | _ => true
  end.

(** ** Data model *)

(** A contour point as OpenCV stores it ([point[0]] is the pair [x, y] of
    [int32] pixel coordinates), and a contour: the ordered points of one traced
    boundary. *)
Definition Point : Type := Z * Z.
Definition Contour : Type := list Point.

(** A point in turtle coordinates and a scaled contour. *)
Definition FPoint : Type := float * float.
Definition ScaledContour : Type := list FPoint.

(** The exceptions the program can meet. *)
Inductive Exn : Type :=
| ValueError (msg : string)
| ZeroDivisionError
| IndexError.

(** ** The external library

    [Mat] is a numpy array holding an image; [imread] returns [None] when the
    file cannot be read or decoded; [shape] is [img.shape]. *)
Class OpenCV : Type := {
  Mat : Type;
  imread : string -> option Mat;
  shape : Mat -> list Z;
  cvtColor_BGR2GRAY : Mat -> Mat;
  GaussianBlur : Mat -> Z * Z -> Z -> Mat;
  Canny : Mat -> Z -> Z -> Mat;
  findContours_LIST_SIMPLE : Mat -> list Contour
}.

(** [cv2.contourArea(contour)] (with [oriented=False]): OpenCV runs over the
    points with the previous point in hand, starting from the last one,

      a00 += prev.x * p.y - prev.y * p.x

    then halves the sum and takes its absolute value.  Pixel coordinates are
    small integers, for which the double arithmetic of OpenCV is exact, so the
    area is given here as the rational number it is. *)
Definition cross (prev p : Point) : Z := fst prev * snd p - snd prev * fst p.

Definition a00 (c : Contour) : Z :=
  fst (fold_left (fun '(acc, prev) p => (acc + cross prev p, p)) c
         (0, last c (0, 0))).

Definition contourArea (c : Contour) : Q :=
  match c with
  | [] => 0%Q
  | _ :: _ => Qabs (inject_Z (a00 c) * (1 # 2))
  end.

(** Python compares the sort keys with [<]. *)
Definition Qltb (a b : Q) : bool := negb (Qle_bool b a).

(** ** Python's [sorted]

    [sorted(l, key=key, reverse=r)] sorts stably using only [<] on the keys.
    With [reverse=True] CPython reverses the list, sorts it stably in
    ascending order and reverses the result, which is what keeps the sort
    stable.  The stable ascending sort is an insertion sort (the result of a
    stable sort does not depend on the algorithm). *)
Section PySorted.
Context {A K : Type} (key : A -> K) (lt : K -> K -> bool).

Fixpoint insert (x : A) (l : list A) : list A :=
  match l with
  | [] => [x]
  | y :: l' => if lt (key x) (key y) then x :: y :: l' else y :: insert x l'
  end.

Definition sort_stable (l : list A) : list A :=
  fold_left (fun acc x => insert x acc) l [].

Definition sorted (reverse : bool) (l : list A) : list A :=
  if reverse then rev (sort_stable (rev l)) else sort_stable l.

(** [a] is not after [b] in ascending order of the keys. *)
Definition key_le (a b : A) : Prop := lt (key b) (key a) = false.

(** The key of [a] is equivalent to [k]: neither is below the other. *)
Definition key_eqv (k : K) (a : A) : bool :=
  negb (lt (key a) k) && negb (lt k (key a)).

End PySorted.

(** ** Machine state and effects *)

(** A call on [self.tool], the turtle that draws. *)
Inductive ToolCmd : Type :=
| PenUp
| PenDown
| Goto (x y : float)
| SetColor (c : string).

(** The texts [update_status] is called with:
    - [MsgLoading]:    "Loading and processing image..."
    - [MsgExtracting]: "Extracting design contours..."
    - [MsgRunning]:    "CNC Machine Running - Drawing Design..."
    - [MsgProgress n total]: f"CNC Machine Running - Progress: {n}/{total} paths"
    - [MsgDrew drawn]: f"Design Complete! Drew {drawn} toolpaths"
    - [MsgDone]:       "✓ CNC Design Complete - Click to close"
    - [MsgError e]:    f"Error: {str(e)}" *)
Inductive StatusMsg : Type :=
| MsgLoading
| MsgExtracting
| MsgRunning
| MsgProgress (n total : nat)
| MsgDrew (drawn : nat)
| MsgDone
| MsgError (e : Exn).

(** The state of a [CNCMachine]: the calls made on [self.tool], the texts
    written on the status display (each [update_status] clears the display and
    writes, so the display shows the last one), and the errors printed on the
    console, all oldest first. *)
Record Machine : Type := mkMachine {
  tool : list ToolCmd;
  status : list StatusMsg;
  console : list Exn
}.

(** A method of [CNCMachine]: it changes the machine and returns a value or
    raises an exception. *)
Definition M (A : Type) : Type := Machine -> Machine * (A + Exn).

Definition ret {A} (a : A) : M A := fun m => (m, inl a).

Definition raise {A} (e : Exn) : M A := fun m => (m, inr e).

Definition bind {A B} (c : M A) (k : A -> M B) : M B :=
  fun m => match c m with
           | (m', inl a) => k a m'
           | (m', inr e) => (m', inr e)
           end.

(** [try: body  except Exception as e: handler(e)] *)
Definition try_except {A} (body : M A) (handler : Exn -> M A) : M A :=
  fun m => match body m with
           | (m', inl a) => (m', inl a)
           | (m', inr e) => handler e m'
           end.

Declare Scope py_scope.
Delimit Scope py_scope with py.
Notation "x <- c ;; k" := (bind c (fun x => k))
  (at level 61, c at next level, right associativity) : py_scope.
Notation "' pat <- c ;; k" := (bind c (fun x => match x with pat => k end))
  (at level 61, pat pattern, c at next level, right associativity) : py_scope.
Notation "c ;; k" := (bind c (fun _ => k))
  (at level 61, right associativity) : py_scope.
Local Open Scope py_scope.

(** A pure computation that may raise. *)
Definition lift {A} (r : A + Exn) : M A := fun m => (m, r).

Definition tool_do (c : ToolCmd) : M unit :=
  fun m => (mkMachine (tool m ++ [c]) (status m) (console m), inl tt).

Definition update_status (msg : StatusMsg) : M unit :=
  fun m => (mkMachine (tool m) (status m ++ [msg]) (console m), inl tt).

Definition print_error (e : Exn) : M unit :=
  fun m => (mkMachine (tool m) (status m) (console m ++ [e]), inl tt).

(** [for x in l: body(x)] *)
Fixpoint for_each {A} (l : list A) (body : A -> M unit) : M unit :=
  match l with
  | [] => ret tt
  | x :: l' => body x ;; for_each l' body
  end.

(** [l[0]] *)
Definition index0 {A} (l : list A) : A + Exn :=
  match l with
  | [] => inr IndexError
  | x :: _ => inl x
  end.

(** ** The methods of [CNCMachine] *)

Section CNCMachine.
Context {cv : OpenCV}.

Definition edge_detection (img_path : string) (threshold1 threshold2 : Z)
  : M (Mat * list Z) :=
  update_status MsgLoading ;;
  match imread img_path with
  | None => raise (ValueError "Could not load image")
  | Some img =>
      let gray := cvtColor_BGR2GRAY img in
      let blurred := GaussianBlur gray (5, 5) 0 in
      let edges := Canny blurred threshold1 threshold2 in
      ret (edges, shape img)
  end.

Definition extract_contours (edges : Mat) : M (list Contour) :=
  update_status MsgExtracting ;;
  let contours := findContours_LIST_SIMPLE edges in
  let contours := sorted contourArea Qltb true contours in
  ret contours.

End CNCMachine.

(** The scale factor [canvas_size / max(h, w)].  The canvas size is a float;
    the program passes the integer [600], which the true division converts
    exactly. *)
Definition scale_of (canvas_size : float) (h w : Z) : float :=
  (canvas_size / Z2F (Z.max h w))%float.

(** The body of the inner loop of [scale_coordinates]. *)
Definition scale_point (h w : Z) (scale : float) (point : Point) : FPoint :=
  let '(x, y) := point in
  let tx := ((Z2F x - Z2F w / 2) * scale)%float in
  let ty := ((Z2F h / 2 - Z2F y) * scale)%float in
  (tx, ty).

(** [scale_coordinates] does not touch the machine.  [h, w = img_shape[:2]]
    needs a shape of at least two entries, and the division raises
    [ZeroDivisionError] when [max(h, w)] is zero; the two loops append to
    lists that start empty. *)
Definition scale_coordinates (contours : list Contour) (img_shape : list Z)
  (canvas_size : float) : list ScaledContour + Exn :=
  match firstn 2 img_shape with
  | [h; w] =>
      if Z.max h w =? 0 then inr ZeroDivisionError
      else
        let scale := scale_of canvas_size h w in
        inl (fold_left
               (fun scaled_contours contour =>
                  scaled_contours ++
                  [fold_left (fun scaled point => scaled ++ [scale_point h w scale point])
                     contour []])
               contours [])
  | _ => inr (ValueError "not enough values to unpack")
  end.

(** The body of the loop of [draw_toolpath] for a contour that is not skipped,
    up to [drawn += 1]. *)
Definition draw_contour (contour : ScaledContour) : M unit :=
  tool_do PenUp ;;
  p0 <- lift (index0 contour) ;;
  tool_do (Goto (fst p0) (snd p0)) ;;
  tool_do PenDown ;;
  tool_do (SetColor "blue") ;;
  for_each (tl contour) (fun '(x, y) => tool_do (Goto x y)) ;;
  tool_do (Goto (fst p0) (snd p0)).

(** The loop of [draw_toolpath]: [i] is the index [enumerate] gives, [drawn]
    the counter; the loop returns the final value of [drawn]. *)
Fixpoint draw_loop (min_points : Z) (total_contours : nat) (i : nat)
  (contours : list ScaledContour) (drawn : nat) : M nat :=
  match contours with
  | [] => ret drawn
  | contour :: rest =>
      if Z.of_nat (length contour) <? min_points
      then draw_loop min_points total_contours (S i) rest drawn
      else
        draw_contour contour ;;
        let drawn := S drawn in
        (if (drawn mod 5 =? 0)%nat
         then update_status (MsgProgress (i + 1) total_contours)
         else ret tt) ;;
        draw_loop min_points total_contours (S i) rest drawn
  end.

Definition draw_toolpath (contours : list ScaledContour) (min_points : Z)
  : M unit :=
  update_status MsgRunning ;;
  let total_contours := length contours in
  drawn <- draw_loop min_points total_contours 0 contours 0 ;;
  tool_do PenUp ;;
  tool_do (Goto (Z2F 0) (Z2F 0)) ;;
  tool_do (SetColor "red") ;;
  update_status (MsgDrew drawn).

Section Pipeline.
Context {cv : OpenCV}.

(** [generate_from_image]; the calls inside use the default arguments
    [threshold1=50], [threshold2=150] and [min_points=10]. *)
Definition generate_from_image (img_path : string) (canvas_size : float)
  : M unit :=
  try_except
    ('(edges, img_shape) <- edge_detection img_path 50 150 ;;
     contours <- extract_contours edges ;;
     scaled_contours <- lift (scale_coordinates contours img_shape canvas_size) ;;
     draw_toolpath scaled_contours 10 ;;
     update_status MsgDone)
    (fun e => update_status (MsgError e) ;; print_error e).

End Pipeline.

(** ** Reading the tool log

    What the turtle draws: a pen-down path starts at the position the pen is
    lowered at and is extended by every [goto] made while the pen is down;
    raising the pen ends it. *)
Record Pen : Type := mkPen {
  pen_pos : FPoint;
  pen_down : bool;
  current : list FPoint;
  finished : list (list FPoint)
}.

Definition exec (s : Pen) (c : ToolCmd) : Pen :=
  match c with
  | PenUp =>
      if pen_down s
      then mkPen (pen_pos s) false [] (finished s ++ [current s])
      else s
  | PenDown =>
      if pen_down s then s
      else mkPen (pen_pos s) true [pen_pos s] (finished s)
  | Goto x y =>
      if pen_down s
      then mkPen (x, y) true (current s ++ [(x, y)]) (finished s)
      else mkPen (x, y) false (current s) (finished s)
  | SetColor _ => s
  end.

Definition run_tool (s : Pen) (cmds : list ToolCmd) : Pen :=
  fold_left exec cmds s.

(** The paths drawn so far, the one under way included. *)
Definition paths (s : Pen) : list (list FPoint) :=
  finished s ++ (if pen_down s then [current s] else []).

(** A turtle as [__init__] leaves it: at the origin, pen down. *)
Definition pen0 : Pen := mkPen (0%float, 0%float) true [(0%float, 0%float)] [].

(** A machine on which nothing has happened yet. *)
Definition machine0 : Machine := mkMachine [] [] [].

(** ** A test double of the library

    Used by the examples only: every file but "white.png" fails to load, and
    "white.png" is a uniform 100x100 image, in which the edge detector finds
    no edge and the tracer no contour. *)
Definition white_image : list (list Z) := repeat (repeat 255 100%nat) 100%nat.

Definition stub_cv : OpenCV := {|
  Mat := list (list Z);
  imread := fun path =>
    if String.eqb path "white.png" then Some white_image else None;
  shape := fun img => [Z.of_nat (length img); Z.of_nat (length (hd [] img)); 3];
  cvtColor_BGR2GRAY := fun img => img;
  GaussianBlur := fun img _ _ => img;
  Canny := fun img _ _ => map (map (fun _ => 0)) img;
  findContours_LIST_SIMPLE := fun _ => []
|}.

(** Two scaled contours for the examples: an open path of ten points, from
    [(0, 0)] to [(9, 81)], and a speck of two points. *)
Definition open_path : ScaledContour :=
  map (fun z => (Z2F z, Z2F (z * z))) [0; 1; 2; 3; 4; 5; 6; 7; 8; 9].

Definition speck : ScaledContour := [(5%float, 5%float); (6%float, 5%float)].

(** ** Names for what the theorems talk about *)

(** The 53-bit mantissa of the float a positive integer below [2^53]
    converts to. *)
Definition norm_mant (p : positive) : positive :=
  match (Zpos (digits2_pos p) - 53)%Z with
  | Zneg d => Pos.iter xO p d
  | _ => p
  end.

(** Python's [==] on floats, and on pairs of floats. *)
Definition feq (a b : float) : bool := (a =? b)%float.
Definition fpoint_eq (p q : FPoint) : bool :=
  feq (fst p) (fst q) && feq (snd p) (snd q).

(** The test of the loop of [draw_toolpath], negated: the contour is drawn. *)
Definition passes (min_points : Z) (contour : ScaledContour) : bool :=
  negb (Z.of_nat (length contour) <? min_points).

(** No empty contour passes that test: [min_points] is at least [1], or no
    contour is empty. *)
Definition drawable (min_points : Z) (contours : list ScaledContour) : Prop :=
  1 <= min_points \/ Forall (fun c => c <> []) contours.

(** The tool calls of one drawn contour. *)
Definition contour_cmds (contour : ScaledContour) : list ToolCmd :=
  match contour with
  | [] => [PenUp]
  | p0 :: ps =>
      [PenUp; Goto (fst p0) (snd p0); PenDown; SetColor "blue"]
      ++ map (fun p => Goto (fst p) (snd p)) ps
      ++ [Goto (fst p0) (snd p0)]
  end.

(** The tool calls that end [draw_toolpath]. *)
Definition home_cmds : list ToolCmd :=
  [PenUp; Goto (Z2F 0) (Z2F 0); SetColor "red"].

(** The progress texts of the loop of [draw_toolpath]. *)
Fixpoint progress_msgs (min_points : Z) (total : nat) (i : nat)
  (contours : list ScaledContour) (drawn : nat) : list StatusMsg :=
  match contours with
  | [] => []
  | c :: rest =>
      if passes min_points c
      then (if (S drawn mod 5 =? 0)%nat then [MsgProgress (i + 1) total] else [])
           ++ progress_msgs min_points total (S i) rest (S drawn)
      else progress_msgs min_points total (S i) rest drawn
  end.

(** A path that comes back to its first point. *)
Definition closed_loop (c : ScaledContour) : list FPoint := c ++ firstn 1 c.

Section PipelineNames.
Context {cv : OpenCV}.

(** The edge map [edge_detection] computes from a loaded image. *)
Definition edges_of (img : Mat) (threshold1 threshold2 : Z) : Mat :=
  Canny (GaussianBlur (cvtColor_BGR2GRAY img) (5, 5) 0) threshold1 threshold2.

(** The exception [edge_detection] raises. *)
Definition load_error : Exn := ValueError "Could not load image".

(** The contours [generate_from_image] hands to [scale_coordinates]. *)
Definition traced (img : Mat) : list Contour :=
  sorted contourArea Qltb true (findContours_LIST_SIMPLE (edges_of img 50 150)).

End PipelineNames.

(** [emits c t s o r]: whatever the machine, [c] adds the tool calls [t], the
    status texts [s] and the console lines [o] to it, and ends with [r]. *)
Definition emits {A} (c : M A) (t : list ToolCmd) (s : list StatusMsg)
  (o : list Exn) (r : A + Exn) : Prop :=
  forall m,
    c m = (mkMachine (tool m ++ t) (status m ++ s) (console m ++ o), r).

(* ================================================================== *)
(** * Part 2. Properties *)
(* ================================================================== *)

(** ** Binary64 facts *)

Lemma digits2_size p : digits2_pos p = Pos.size p.
Proof. induction p; simpl; congruence. Qed.

Lemma digits2_iter_xO p n :
  Zpos (digits2_pos (Pos.iter xO p n)) = Zpos (digits2_pos p) + Zpos n.
Proof.
  induction n using Pos.peano_ind.
  - simpl. lia.
  - rewrite Pos.iter_succ. simpl digits2_pos. lia.
Qed.

Lemma digits2_bound p k :
  0 <= k -> Zpos p < 2 ^ k -> Zpos (digits2_pos p) <= k.
Proof.
  intros Hk Hp. rewrite digits2_size.
  pose proof (Pos.size_le p) as Hle.
  destruct (Z.le_gt_cases (Zpos (Pos.size p)) k) as [|Hgt]; [assumption|exfalso].
  assert (H : 2 ^ (k + 1) <= 2 ^ Zpos (Pos.size p)) by (apply Z.pow_le_mono_r; lia).
  assert (Zpos (2 ^ Pos.size p) = 2 ^ Zpos (Pos.size p))
    by (rewrite Pos2Z.inj_pow; reflexivity).
  rewrite Z.pow_add_r in H by lia.
  assert (Zpos (2 ^ Pos.size p) <= Zpos p~0) by (apply Pos2Z.pos_le_pos; exact Hle).
  lia.
Qed.

(** Rounding leaves a mantissa of 53 bits with an exponent in range alone. *)
Lemma round_aux_canonical s m e :
  Zpos (digits2_pos m) = 53 -> -1074 <= e <= 971 ->
  binary_round_aux prec emax s (Zpos m) e loc_Exact = S754_finite s m e.
Proof.
  intros Hd He.
  assert (Hz : fexp prec emax (Zdigits2 (Zpos m) + e) - e = 0).
  { unfold fexp, emin, prec, emax, Zdigits2. rewrite Hd. lia. }
  unfold binary_round_aux, shr_fexp.
  cbn [shr_record_of_loc]. rewrite Hz.
  cbn [shr shr_m loc_of_shr_record round_nearest_even].
  rewrite Hz. cbn [shr shr_m].
  replace (e <=? emax - prec) with true; [reflexivity|].
  symmetry; apply Z.leb_le. unfold emax, prec; lia.
Qed.

Lemma norm_mant_digits p :
  Zpos p < 2 ^ 53 -> Zpos (digits2_pos (norm_mant p)) = 53.
Proof.
  intros Hp. pose proof (digits2_bound p 53 ltac:(lia) Hp) as Hd.
  unfold norm_mant.
  destruct (Zpos (digits2_pos p) - 53) as [|q|q] eqn:E; try lia.
  rewrite digits2_iter_xO. lia.
Qed.

Lemma binary_round_small s p :
  Zpos p < 2 ^ 53 ->
  binary_round prec emax s p 0 =
  S754_finite s (norm_mant p) (Zpos (digits2_pos p) - 53).
Proof.
  intros Hp. pose proof (digits2_bound p 53 ltac:(lia) Hp) as Hd.
  pose proof (norm_mant_digits p Hp) as Hn.
  unfold binary_round.
  assert (Hf : fexp prec emax (Zpos (digits2_pos p) + 0) = Zpos (digits2_pos p) - 53).
  { unfold fexp, emin, prec, emax. lia. }
  rewrite Hf. unfold shl_align. rewrite Z.sub_0_r.
  unfold norm_mant in Hn |- *.
  destruct (Zpos (digits2_pos p) - 53) as [|q|q] eqn:E; try lia;
    (apply round_aux_canonical; [assumption | lia]).
Qed.

(** Integers below [2^53] convert exactly. *)
Lemma Prim2SF_Z2F_pos p :
  Zpos p < 2 ^ 53 ->
  Prim2SF (Z2F (Zpos p)) =
  S754_finite false (norm_mant p) (Zpos (digits2_pos p) - 53).
Proof.
  intros Hp. unfold Z2F. rewrite FloatAxioms.of_uint63_spec, Uint63.of_Z_spec.
  rewrite Z.mod_small by (unfold Uint63.wB; simpl; lia).
  simpl binary_normalize. apply binary_round_small. exact Hp.
Qed.

Lemma Prim2SF_Z2F_neg p :
  Zpos p < 2 ^ 53 ->
  Prim2SF (Z2F (Zneg p)) =
  S754_finite true (norm_mant p) (Zpos (digits2_pos p) - 53).
Proof.
  intros Hp. unfold Z2F. rewrite FloatAxioms.opp_spec.
  change (of_uint63 (Uint63.of_Z (Zpos p))) with (Z2F (Zpos p)).
  rewrite Prim2SF_Z2F_pos by assumption. reflexivity.
Qed.

(** Halving a float with a full mantissa only lowers its exponent. *)
Lemma halve_canonical s m e :
  Zpos (digits2_pos m) = 53 -> -1072 <= e <= 971 ->
  SF64div (S754_finite s m e) (Prim2SF 2%float) = S754_finite s m (e - 1).
Proof.
  intros Hd He.
  change (Prim2SF 2%float) with (S754_finite false 4503599627370496 (-51)).
  unfold SF64div, SFdiv, SFdiv_core_binary.
  cbn [Zdigits2]. rewrite Hd.
  change (Zpos (digits2_pos 4503599627370496)) with 53.
  assert (He' : Z.min (fexp prec emax (53 + e - (53 + -51))) (e - -51) = e - 2).
  { unfold fexp, emin, prec, emax. lia. }
  rewrite He'.
  replace (e - -51 - (e - 2)) with 53 by lia.
  change (IntDef.Z.shiftl (Zpos m) 53) with (Z.shiftl (Zpos m) 53).
  change IntDef.Z.div_eucl with Z.div_eucl.
  rewrite Z.shiftl_mul_pow2 by lia.
  replace (Zpos m * 2 ^ 53) with (Zpos m~0 * 4503599627370496) by lia.
  pose proof (Z.div_mul (Zpos m~0) 4503599627370496 ltac:(lia)) as Hq.
  pose proof (Z.mod_mul (Zpos m~0) 4503599627370496 ltac:(lia)) as Hr.
  unfold Z.div, Z.modulo in Hq, Hr.
  destruct (Z.div_eucl (Zpos m~0 * 4503599627370496) 4503599627370496) as [q r].
  subst q r. rewrite Bool.xorb_false_r.
  change (new_location 4503599627370496 0) with loc_Exact.
  unfold binary_round_aux, shr_fexp. cbn [Zdigits2 digits2_pos shr_record_of_loc].
  assert (H1 : fexp prec emax (Zpos (Pos.succ (digits2_pos m)) + (e - 2)) - (e - 2) = 1).
  { unfold fexp, emin, prec, emax. lia. }
  rewrite H1.
  cbn [shr iter_pos shr_1 orb shr_m loc_of_shr_record round_nearest_even Zdigits2].
  assert (H2 : fexp prec emax (Zpos (digits2_pos m) + (e - 2 + 1)) - (e - 2 + 1) = 0).
  { unfold fexp, emin, prec, emax. lia. }
  rewrite H2. cbn [shr shr_m].
  replace (e - 2 + 1 <=? emax - prec) with true
    by (symmetry; apply Z.leb_le; unfold emax, prec; lia).
  f_equal. lia.
Qed.

Lemma norm_mant_double p :
  Zpos p < 2 ^ 52 -> norm_mant p~0 = norm_mant p.
Proof.
  intros Hp. unfold norm_mant. cbn [digits2_pos].
  pose proof (digits2_bound p 52 ltac:(lia) Hp).
  destruct (Zpos (digits2_pos p) - 53) as [|q|q] eqn:E; try lia.
  destruct (Zpos (Pos.succ (digits2_pos p)) - 53) as [|q'|q'] eqn:E'; try lia.
  - assert (q = 1%positive) by lia. subst q. reflexivity.
  - assert (q = Pos.succ q') by lia. subst q. rewrite Pos.iter_succ_r. reflexivity.
Qed.

(** [w/2] is exact for an even [w]: it is the float of the integer [w/2]. *)
Lemma Z2F_halve x :
  0 <= x < 2 ^ 52 -> (Z2F (2 * x) / 2)%float = Z2F x.
Proof.
  intros Hx. destruct x as [|p|p]; [reflexivity| |lia].
  apply Prim2SF_inj. rewrite FloatAxioms.div_spec.
  change (2 * Zpos p) with (Zpos p~0).
  rewrite !Prim2SF_Z2F_pos by lia.
  rewrite halve_canonical.
  - rewrite norm_mant_double by lia. f_equal. cbn [digits2_pos]. lia.
  - apply norm_mant_digits; lia.
  - pose proof (digits2_bound p~0 53 ltac:(lia) ltac:(lia)). lia.
Qed.

Lemma Z2F_zero_or_finite z :
  - 2 ^ 53 < z < 2 ^ 53 ->
  Prim2SF (Z2F z) = S754_zero false \/
  exists s m e, Prim2SF (Z2F z) = S754_finite s m e.
Proof.
  intros Hz. destruct z as [|p|p].
  - left. reflexivity.
  - right. rewrite Prim2SF_Z2F_pos by lia. eauto.
  - right. rewrite Prim2SF_Z2F_neg by lia. eauto.
Qed.

(** [a - a] is [+0] unless [a] is an infinity or a NaN. *)
Lemma sub_self a :
  (Prim2SF a = S754_zero false \/ exists s m e, Prim2SF a = S754_finite s m e) ->
  (a - a)%float = 0%float.
Proof.
  intros Ha. apply Prim2SF_inj. rewrite FloatAxioms.sub_spec.
  destruct Ha as [Ha | (s & m & e & Ha)]; rewrite Ha; [reflexivity|].
  unfold SF64sub, SFsub. rewrite Z.sub_diag. reflexivity.
Qed.

(** [b - 0] is [b]. *)
Lemma sub_zero_r b : (b - Z2F 0)%float = b.
Proof.
  apply Prim2SF_inj. rewrite FloatAxioms.sub_spec.
  change (Prim2SF (Z2F 0)) with (S754_zero false).
  destruct (Prim2SF b) as [[|]| | |]; reflexivity.
Qed.

(** [0 * s == 0] for a finite [s]. *)
Lemma mul_zero_finite s :
  is_finite s = true -> feq (0 * s) 0 = true.
Proof.
  unfold is_finite, feq. rewrite FloatAxioms.classify_spec.
  rewrite FloatAxioms.eqb_spec, FloatAxioms.mul_spec.
  change (Prim2SF 0) with (S754_zero false).
  destruct (Prim2SF s) as [[|]|[|]| |[|] m e]; simpl; try reflexivity; discriminate.
Qed.

(** [0 - w/2] is [(-w)/2]. *)
Lemma zero_sub_half w :
  0 <= w < 2 ^ 53 -> (Z2F 0 - Z2F w / 2)%float = (Z2F (- w) / 2)%float.
Proof.
  intros Hw. destruct w as [|p|p]; [reflexivity| |lia].
  apply Prim2SF_inj.
  rewrite FloatAxioms.sub_spec, !FloatAxioms.div_spec.
  change (- Zpos p) with (Zneg p).
  rewrite Prim2SF_Z2F_pos, Prim2SF_Z2F_neg by lia.
  pose proof (digits2_bound p 53 ltac:(lia) ltac:(lia)).
  rewrite !halve_canonical by (try apply norm_mant_digits; lia).
  reflexivity.
Qed.

(** ** The coordinate mapper *)

Lemma fold_append_map {A B} (f : A -> B) (l : list A) (acc : list B) :
  fold_left (fun out a => out ++ [f a]) l acc = acc ++ map f l.
Proof.
  revert acc. induction l as [|a l IH]; intros acc; simpl.
  - now rewrite app_nil_r.
  - rewrite IH, <- app_assoc. reflexivity.
Qed.

(** The two loops of [scale_coordinates] are a map of maps. *)
Lemma scale_coordinates_map contours h w rest canvas_size :
  Z.max h w <> 0 ->
  scale_coordinates contours (h :: w :: rest) canvas_size =
  inl (map (map (scale_point h w (scale_of canvas_size h w))) contours).
Proof.
  intros Hmax. unfold scale_coordinates. cbn [firstn].
  destruct (Z.eqb_spec (Z.max h w) 0) as [E|_]; [contradiction|].
  f_equal.
  rewrite (fold_append_map
             (fun contour => fold_left
                (fun scaled point =>
                   scaled ++ [scale_point h w (scale_of canvas_size h w) point])
                contour [])).
  cbn [app]. apply map_ext. intros c. now rewrite fold_append_map.
Qed.

(** The division by zero is not guarded. *)
Lemma scale_coordinates_zero_shape contours h w rest canvas_size :
  Z.max h w = 0 ->
  scale_coordinates contours (h :: w :: rest) canvas_size = inr ZeroDivisionError.
Proof.
  intros E. unfold scale_coordinates. cbn [firstn]. rewrite E. reflexivity.
Qed.

(** The centre of the image goes to the origin. *)
Lemma scale_point_center h w scale x y :
  0 <= w < 2 ^ 53 -> 0 <= h < 2 ^ 53 -> w = 2 * x -> h = 2 * y ->
  is_finite scale = true ->
  fpoint_eq (scale_point h w scale (x, y)) (0%float, 0%float) = true.
Proof.
  intros Hw Hh -> -> Hs. unfold scale_point, fpoint_eq. cbn [fst snd].
  rewrite !Z2F_halve by lia.
  rewrite !sub_self by (apply Z2F_zero_or_finite; lia).
  rewrite mul_zero_finite by assumption. reflexivity.
Qed.

(** The corner [(0, 0)] of the image. *)
Lemma scale_point_corner h w scale :
  0 <= w < 2 ^ 53 ->
  scale_point h w scale (0, 0) =
  ((Z2F (- w) / 2) * scale, (Z2F h / 2) * scale)%float.
Proof.
  intros Hw. unfold scale_point.
  rewrite zero_sub_half by assumption. rewrite sub_zero_r. reflexivity.
Qed.

(** C1. For a shape [(h, w, ...)] with [max(h, w)] not zero and
    [scale = canvas_size / max(h, w)], [scale_coordinates] maps every point
    [(x, y)] of every contour to [((x - w/2) * scale, (h/2 - y) * scale)].
    In particular the corner [(0, 0)] goes to [(-w/2 * scale, h/2 * scale)],
    and, when [w] and [h] are even and the scale is a finite number, the
    centre [(w/2, h/2)] goes to a point equal to [(0, 0)]. *)
Theorem scale_coordinates_formula contours h w rest canvas_size :
  Z.max h w <> 0 ->
  let scale := (canvas_size / Z2F (Z.max h w))%float in
  let image := fun p : Point =>
    (((Z2F (fst p) - Z2F w / 2) * scale)%float,
     ((Z2F h / 2 - Z2F (snd p)) * scale)%float) in
  scale_coordinates contours (h :: w :: rest) canvas_size =
    inl (map (map image) contours) /\
  (0 <= w < 2 ^ 53 ->
   image (0, 0) = ((Z2F (- w) / 2) * scale, (Z2F h / 2) * scale)%float) /\
  (forall x y,
     0 <= w < 2 ^ 53 -> 0 <= h < 2 ^ 53 -> w = 2 * x -> h = 2 * y ->
     is_finite scale = true ->
     fpoint_eq (image (x, y)) (0%float, 0%float) = true).
Proof.
  intros Hmax scale image. split; [|split].
  - rewrite scale_coordinates_map by assumption. f_equal.
    apply map_ext. intros c. apply map_ext. intros [x y]. reflexivity.
  - apply (scale_point_corner h w scale).
  - intros x y. apply (scale_point_center h w scale x y).
Qed.

(** An image of 100x100 pixels on a canvas of 600: the centre [(50, 50)] and
    the corner [(0, 0)]. *)
Lemma scale_coordinates_formula_witness :
  scale_coordinates [[(50, 50); (0, 0)]] [100; 100; 3] 600%float =
    inl [[(0%float, 0%float); ((-300)%float, 300%float)]] /\
  fpoint_eq (((Z2F 50 - Z2F 100 / 2) * (600 / Z2F 100))%float,
             ((Z2F 100 / 2 - Z2F 50) * (600 / Z2F 100))%float)
            (0%float, 0%float) = true.
Proof.
  pose proof (scale_coordinates_formula [[(50, 50); (0, 0)]] 100 100 [3]
                600%float ltac:(lia)) as H.
  cbv zeta in H. destruct H as (H1 & _ & H3). split.
  - exact H1.
  - apply (H3 50 50); [lia | lia | reflexivity | reflexivity | reflexivity].
Defined.

(** C4. [scale_coordinates] returns one scaled contour per contour, in the
    same order, and the scaled contour is the image of its contour point by
    point: it has the same number of points, in the same order. *)
Theorem scale_coordinates_preserves contours h w rest canvas_size :
  Z.max h w <> 0 ->
  exists scaled,
    scale_coordinates contours (h :: w :: rest) canvas_size = inl scaled /\
    length scaled = length contours /\
    map (@length FPoint) scaled = map (@length Point) contours /\
    forall i contour,
      nth_error contours i = Some contour ->
      exists sc,
        nth_error scaled i = Some sc /\
        length sc = length contour /\
        forall j p,
          nth_error contour j = Some p ->
          nth_error sc j =
            Some (scale_point h w (scale_of canvas_size h w) p).
Proof.
  intros Hmax. eexists. split; [apply scale_coordinates_map; assumption|].
  split; [apply length_map|]. split.
  - rewrite map_map. apply map_ext. intros c. apply length_map.
  - intros i contour Hi. eexists. split; [|split].
    + apply map_nth_error. exact Hi.
    + apply length_map.
    + intros j p Hj. apply map_nth_error. exact Hj.
Qed.

Lemma scale_coordinates_preserves_witness :
  exists scaled,
    scale_coordinates [[(1, 2); (3, 4); (5, 6)]; [(7, 8)]] [480; 640; 3]
      600%float = inl scaled /\
    length scaled = 2%nat /\
    map (@length FPoint) scaled = [3%nat; 1%nat].
Proof.
  destruct (scale_coordinates_preserves [[(1, 2); (3, 4); (5, 6)]; [(7, 8)]]
              480 640 [3] 600%float ltac:(lia)) as (scaled & H1 & H2 & H3 & _).
  exists scaled. split; [exact H1|]. split; [exact H2 | exact H3].
Defined.

(** C9. For a shape with [max(h, w) > 0] the unguarded division of
    [scale_coordinates] is safe: the function returns a list and does not
    raise [ZeroDivisionError]. *)
Theorem scale_coordinates_total contours h w rest canvas_size :
  0 < Z.max h w ->
  (exists scaled,
     scale_coordinates contours (h :: w :: rest) canvas_size = inl scaled) /\
  scale_coordinates contours (h :: w :: rest) canvas_size
    <> inr ZeroDivisionError.
Proof.
  intros Hmax.
  rewrite scale_coordinates_map by lia. split; [eauto | discriminate].
Qed.

Lemma scale_coordinates_total_witness :
  (exists scaled,
     scale_coordinates [[(1, 2)]] [480; 640; 3] 600%float = inl scaled) /\
  scale_coordinates [[(1, 2)]] [480; 640; 3] 600%float
    <> inr ZeroDivisionError.
Proof.
  apply (scale_coordinates_total [[(1, 2)]] 480 640 [3] 600%float). lia.
Defined.

(** ** Python's [sorted] sorts, permutes and is stable *)

Lemma filter_none {A} (f : A -> bool) l :
  (forall z, In z l -> f z = false) -> filter f l = [].
Proof.
  induction l as [|a l IH]; intros H; simpl; [reflexivity|].
  rewrite (H a) by (left; reflexivity).
  apply IH. intros z Hz. apply H. right. exact Hz.
Qed.

Lemma StronglySorted_weaken {A} (R R' : A -> A -> Prop) l :
  (forall a b, R a b -> R' a b) -> StronglySorted R l -> StronglySorted R' l.
Proof.
  intros HR. induction 1 as [|y l Hs IH Hy]; constructor; [assumption|].
  eapply Forall_impl; [|exact Hy]. intros b. apply HR.
Qed.

Lemma StronglySorted_app {A} (R : A -> A -> Prop) l1 l2 :
  StronglySorted R l1 -> StronglySorted R l2 ->
  (forall a b, In a l1 -> In b l2 -> R a b) ->
  StronglySorted R (l1 ++ l2).
Proof.
  induction 1 as [|y l Hs IH Hy]; intros H2 Hc; simpl; [assumption|].
  constructor.
  - apply IH; [assumption|]. intros a b Ha Hb. apply Hc; [right|]; assumption.
  - apply Forall_app. split; [assumption|].
    rewrite Forall_forall. intros b Hb. apply Hc; [left; reflexivity | exact Hb].
Qed.

Lemma StronglySorted_rev {A} (R : A -> A -> Prop) l :
  StronglySorted R l -> StronglySorted (fun a b => R b a) (rev l).
Proof.
  induction 1 as [|y l Hs IH Hy]; simpl; [constructor|].
  apply StronglySorted_app; [assumption | repeat constructor |].
  intros a b Ha [<-|[]]. rewrite Forall_forall in Hy.
  apply Hy, in_rev, Ha.
Qed.

(** In a sorted list each element is in relation with the next one. *)
Lemma StronglySorted_adjacent {A} (R : A -> A -> Prop) l i a b :
  StronglySorted R l ->
  nth_error l i = Some a -> nth_error l (S i) = Some b -> R a b.
Proof.
  intros Hs. revert i. induction Hs as [|y l Hs IH Hy]; intros i Ha Hb.
  - destruct i; discriminate.
  - destruct i as [|i].
    + injection Ha as <-. rewrite Forall_forall in Hy.
      apply Hy. apply (nth_error_In l 0). exact Hb.
    + apply (IH i); assumption.
Qed.

Section SortedFacts.
Context {A K : Type} (key : A -> K) (lt : K -> K -> bool).

(** [<] on the keys is a strict weak order: it is asymmetric and "not less
    than" is transitive. *)
Hypothesis lt_asym : forall a b, lt a b = true -> lt b a = false.
Hypothesis nlt_trans :
  forall a b c, lt b a = false -> lt c b = false -> lt c a = false.

Lemma insert_perm x l : Permutation (insert key lt x l) (x :: l).
Proof.
  induction l as [|y l IH]; simpl; [reflexivity|].
  destruct (lt (key x) (key y)); [reflexivity|].
  rewrite IH. apply perm_swap.
Qed.

Lemma insert_sorted x l :
  StronglySorted (key_le key lt) l ->
  StronglySorted (key_le key lt) (insert key lt x l).
Proof.
  induction 1 as [|y l Hs IH Hy]; simpl.
  - repeat constructor.
  - destruct (lt (key x) (key y)) eqn:E.
    + constructor; [constructor; assumption|].
      constructor; [apply lt_asym; exact E|].
      rewrite Forall_forall in Hy |- *. intros z Hz.
      unfold key_le in *. eapply nlt_trans; [apply lt_asym; exact E|].
      apply Hy, Hz.
    + constructor; [exact IH|].
      rewrite Forall_forall in Hy |- *. intros z Hz.
      apply (Permutation_in _ (insert_perm x l)) in Hz.
      destruct Hz as [<-|Hz]; [exact E | apply Hy, Hz].
Qed.

Lemma fold_insert_perm l acc :
  Permutation (fold_left (fun acc x => insert key lt x acc) l acc) (acc ++ l).
Proof.
  revert acc. induction l as [|x l IH]; intros acc; simpl.
  - now rewrite app_nil_r.
  - rewrite IH, insert_perm. apply Permutation_middle.
Qed.

Lemma fold_insert_sorted l acc :
  StronglySorted (key_le key lt) acc ->
  StronglySorted (key_le key lt)
    (fold_left (fun acc x => insert key lt x acc) l acc).
Proof.
  revert acc. induction l as [|x l IH]; intros acc Hacc; simpl;
    [assumption | apply IH, insert_sorted, Hacc].
Qed.

(** Insertion puts [x] behind the elements of equivalent key. *)
Lemma insert_stable k x l :
  StronglySorted (key_le key lt) l ->
  filter (key_eqv key lt k) (insert key lt x l) =
  filter (key_eqv key lt k) l ++ filter (key_eqv key lt k) [x].
Proof.
  induction 1 as [|y l Hs IH Hy]; [reflexivity|].
  cbn [insert]. destruct (lt (key x) (key y)) eqn:E.
  - cbn [filter app].
    destruct (key_eqv key lt k x) eqn:Ex; [|now rewrite app_nil_r].
    (* x ~ k and x < y <= z: nothing from y on is equivalent to k *)
    assert (Hnone : filter (key_eqv key lt k) (y :: l) = []).
    { assert (Hall : Forall (key_le key lt y) (y :: l)).
      { constructor; [|exact Hy].
        unfold key_le. destruct (lt (key y) (key y)) eqn:Eyy; [|reflexivity].
        rewrite (lt_asym _ _ Eyy) in Eyy. discriminate. }
      apply filter_none. rewrite Forall_forall in Hall.
      intros z Hz. specialize (Hall z Hz). unfold key_le in Hall.
      unfold key_eqv in Ex |- *.
      apply andb_true_iff in Ex. destruct Ex as [Ex1 Ex2].
      apply negb_true_iff in Ex1, Ex2.
      destruct (lt (key z) k) eqn:Ez1; [reflexivity|].
      destruct (lt k (key z)) eqn:Ez2; [reflexivity|]. exfalso.
      (* y <= z <= k <= x contradicts x < y *)
      assert (lt (key x) (key z) = false)
        by (eapply (nlt_trans _ k); eassumption).
      assert (lt (key x) (key y) = false)
        by (eapply (nlt_trans _ (key z)); eassumption).
      congruence. }
    cbn [filter] in Hnone. rewrite Hnone. reflexivity.
  - cbn [filter]. rewrite IH.
    destruct (key_eqv key lt k y); reflexivity.
Qed.

Lemma fold_insert_stable k l acc :
  StronglySorted (key_le key lt) acc ->
  filter (key_eqv key lt k)
    (fold_left (fun acc x => insert key lt x acc) l acc) =
  filter (key_eqv key lt k) acc ++ filter (key_eqv key lt k) l.
Proof.
  revert acc. induction l as [|x l IH]; intros acc Hacc; simpl fold_left.
  - now rewrite app_nil_r.
  - rewrite IH by (apply insert_sorted, Hacc).
    rewrite insert_stable by assumption.
    rewrite <- app_assoc, <- filter_app. reflexivity.
Qed.

Lemma sort_stable_sorted l :
  StronglySorted (key_le key lt) (sort_stable key lt l).
Proof. apply fold_insert_sorted. constructor. Qed.

Lemma sorted_reverse_sorted l :
  StronglySorted (fun a b => key_le key lt b a) (sorted key lt true l).
Proof. apply StronglySorted_rev, sort_stable_sorted. Qed.

Lemma sorted_reverse_perm l : Permutation (sorted key lt true l) l.
Proof.
  unfold sorted, sort_stable.
  rewrite <- Permutation_rev, fold_insert_perm. cbn [app].
  symmetry. apply Permutation_rev.
Qed.

(** Stability with [reverse=True]: the elements of any one key class come
    out in the order they came in. *)
Lemma sorted_reverse_stable k l :
  filter (key_eqv key lt k) (sorted key lt true l) =
  filter (key_eqv key lt k) l.
Proof.
  unfold sorted, sort_stable.
  rewrite filter_rev, fold_insert_stable by constructor.
  cbn [filter app]. rewrite filter_rev. apply rev_involutive.
Qed.

End SortedFacts.

(** ** The contour tracer *)

Lemma Qltb_asym a b : Qltb a b = true -> Qltb b a = false.
Proof.
  unfold Qltb. intros H. apply negb_true_iff in H. apply negb_false_iff.
  apply Qle_bool_iff. apply Qlt_le_weak, Qnot_le_lt.
  intros Hle. apply Qle_bool_iff in Hle. congruence.
Qed.

Lemma Qltb_nlt_trans a b c :
  Qltb b a = false -> Qltb c b = false -> Qltb c a = false.
Proof.
  unfold Qltb. intros H1 H2.
  apply negb_false_iff in H1, H2. apply negb_false_iff.
  apply Qle_bool_iff in H1, H2. apply Qle_bool_iff.
  eapply Qle_trans; eassumption.
Qed.

Lemma key_le_area a b :
  key_le contourArea Qltb a b <-> (contourArea a <= contourArea b)%Q.
Proof.
  unfold key_le, Qltb. rewrite negb_false_iff. apply Qle_bool_iff.
Qed.

Lemma key_eqv_area k c :
  key_eqv contourArea Qltb k c = Qeq_bool (contourArea c) k.
Proof.
  unfold key_eqv, Qltb. rewrite !negb_involutive.
  destruct (Qeq_bool (contourArea c) k) eqn:E.
  - apply Qeq_bool_iff in E. apply andb_true_iff.
    split; apply Qle_bool_iff; rewrite E; apply Qle_refl.
  - apply andb_false_iff.
    destruct (Qle_bool k (contourArea c)) eqn:E1; [|left; reflexivity].
    destruct (Qle_bool (contourArea c) k) eqn:E2; [|right; reflexivity].
    apply Qle_bool_iff in E1, E2.
    assert (Heq : (contourArea c == k)%Q) by (apply Qle_antisym; assumption).
    apply Qeq_bool_iff in Heq. congruence.
Qed.

(** The area of a contour is the shoelace area of its polygon. *)
Example contourArea_unit_square :
  (contourArea [(0, 0); (1, 0); (1, 1); (0, 1)]%Z == 1)%Q.
Proof. reflexivity. Qed.

Example contourArea_clockwise_triangle :
  (contourArea [(0, 0); (0, 3); (4, 0)]%Z == 6)%Q.
Proof. reflexivity. Qed.

Lemma contourArea_nonneg c : (0 <= contourArea c)%Q.
Proof.
  destruct c; unfold contourArea; [apply Qle_refl | apply Qabs_nonneg].
Qed.

Section ContourTracer.
Context {cv : OpenCV}.

Lemma extract_contours_eq edges m :
  extract_contours edges m =
  (mkMachine (tool m) (status m ++ [MsgExtracting]) (console m),
   inl (sorted contourArea Qltb true (findContours_LIST_SIMPLE edges))).
Proof. reflexivity. Qed.

(** C2. The contours [extract_contours] returns are those the tracer found,
    in descending order of area: each one has an area at least that of every
    later one, in particular of the next one; and the contours of any one
    area are in the order the tracer found them in. *)
Theorem extract_contours_sorted edges m :
  exists contours,
    snd (extract_contours edges m) = inl contours /\
    Permutation contours (findContours_LIST_SIMPLE edges) /\
    StronglySorted (fun a b => (contourArea a >= contourArea b)%Q) contours /\
    (forall i a b,
       nth_error contours i = Some a -> nth_error contours (S i) = Some b ->
       (contourArea a >= contourArea b)%Q) /\
    (forall area,
       filter (fun c => Qeq_bool (contourArea c) area) contours =
       filter (fun c => Qeq_bool (contourArea c) area)
         (findContours_LIST_SIMPLE edges)).
Proof.
  rewrite extract_contours_eq. cbn [snd]. eexists. split; [reflexivity|].
  assert (Hs : StronglySorted (fun a b => (contourArea a >= contourArea b)%Q)
                 (sorted contourArea Qltb true (findContours_LIST_SIMPLE edges))).
  { eapply StronglySorted_weaken;
      [|apply (sorted_reverse_sorted contourArea Qltb Qltb_asym Qltb_nlt_trans)].
    intros a b H. apply key_le_area. exact H. }
  split; [|split; [|split]].
  - apply (sorted_reverse_perm contourArea Qltb).
  - exact Hs.
  - intros i a b Ha Hb.
    exact (StronglySorted_adjacent _ _ i a b Hs Ha Hb).
  - intros area.
    rewrite <- (filter_ext _ _ (key_eqv_area area)).
    rewrite <- (filter_ext _ _ (key_eqv_area area)
                  (findContours_LIST_SIMPLE edges)).
    apply (sorted_reverse_stable contourArea Qltb Qltb_asym Qltb_nlt_trans).
Qed.

End ContourTracer.

(** ** What a method adds to the machine *)

Lemma emits_eq {A} (c : M A) t s o r t' s' o' :
  emits c t s o r -> t = t' -> s = s' -> o = o' -> emits c t' s' o' r.
Proof. intros H <- <- <-. exact H. Qed.

Lemma emits_lift {A} (r : A + Exn) : emits (lift r) [] [] [] r.
Proof. intros [t s o]. unfold lift. cbn. now rewrite !app_nil_r. Qed.

Lemma emits_ret {A} (a : A) : emits (ret a) [] [] [] (inl a).
Proof. apply (emits_lift (inl a)). Qed.

Lemma emits_raise {A} (e : Exn) : emits (@raise A e) [] [] [] (inr e).
Proof. apply (emits_lift (inr e)). Qed.

Lemma emits_tool_do c : emits (tool_do c) [c] [] [] (inl tt).
Proof. intros [t s o]. unfold tool_do. cbn. now rewrite !app_nil_r. Qed.

Lemma emits_update_status msg : emits (update_status msg) [] [msg] [] (inl tt).
Proof. intros [t s o]. unfold update_status. cbn. now rewrite !app_nil_r. Qed.

Lemma emits_print_error e : emits (print_error e) [] [] [e] (inl tt).
Proof. intros [t s o]. unfold print_error. cbn. now rewrite !app_nil_r. Qed.

Lemma emits_bind {A B} (c : M A) (k : A -> M B) a t1 s1 o1 t2 s2 o2 r :
  emits c t1 s1 o1 (inl a) -> emits (k a) t2 s2 o2 r ->
  emits (bind c k) (t1 ++ t2) (s1 ++ s2) (o1 ++ o2) r.
Proof.
  intros Hc Hk m. unfold bind. rewrite Hc, Hk. cbn. now rewrite !app_assoc.
Qed.

Lemma emits_bind_raise {A B} (c : M A) (k : A -> M B) e t s o :
  emits c t s o (inr e) -> emits (bind c k) t s o (inr e).
Proof. intros Hc m. unfold bind. now rewrite Hc. Qed.

Lemma emits_try_returns {A} (body : M A) handler a t s o :
  emits body t s o (inl a) -> emits (try_except body handler) t s o (inl a).
Proof. intros Hb m. unfold try_except. now rewrite Hb. Qed.

Lemma emits_try_handles {A} (body : M A) handler e t1 s1 o1 t2 s2 o2 r :
  emits body t1 s1 o1 (inr e) -> emits (handler e) t2 s2 o2 r ->
  emits (try_except body handler) (t1 ++ t2) (s1 ++ s2) (o1 ++ o2) r.
Proof.
  intros Hb Hh m. unfold try_except. rewrite Hb, Hh. cbn. now rewrite !app_assoc.
Qed.

(** ** The path filter and the emission of a path *)

Lemma for_each_goto ps :
  emits (for_each ps (fun '(x, y) => tool_do (Goto x y)))
    (map (fun p => Goto (fst p) (snd p)) ps) [] [] (inl tt).
Proof.
  induction ps as [|[x y] ps IH]; cbn [for_each map].
  - apply emits_ret.
  - eapply emits_eq; [eapply emits_bind; [apply emits_tool_do | exact IH]
                     | reflexivity..].
Qed.

Lemma draw_contour_emits p0 ps :
  emits (draw_contour (p0 :: ps)) (contour_cmds (p0 :: ps)) [] [] (inl tt).
Proof.
  unfold draw_contour, contour_cmds. cbn [index0 tl].
  eapply emits_eq.
  - eapply emits_bind; [apply emits_tool_do|].
    eapply emits_bind; [apply emits_lift|].
    eapply emits_bind; [apply emits_tool_do|].
    eapply emits_bind; [apply emits_tool_do|].
    eapply emits_bind; [apply emits_tool_do|].
    eapply emits_bind; [apply for_each_goto|].
    apply emits_tool_do.
  - reflexivity.
  - reflexivity.
  - reflexivity.
Qed.

(** An empty contour that reaches the drawing code raises [IndexError], after
    the pen has been raised. *)
Lemma draw_contour_empty :
  emits (draw_contour []) [PenUp] [] [] (inr IndexError).
Proof.
  unfold draw_contour. cbn [index0].
  eapply emits_eq.
  - eapply emits_bind; [apply emits_tool_do|].
    apply emits_bind_raise. apply (emits_lift (inr IndexError)).
  - reflexivity.
  - reflexivity.
  - reflexivity.
Qed.

Lemma drawable_tail min_points c rest :
  drawable min_points (c :: rest) -> drawable min_points rest.
Proof.
  intros [H|H]; [left; exact H | right; inversion H; assumption].
Qed.

Lemma drawable_head min_points c rest :
  drawable min_points (c :: rest) -> passes min_points c = true -> c <> [].
Proof.
  intros [H|H] Hp.
  - intros ->. unfold passes in Hp. cbn in Hp.
    destruct (Z.ltb_spec 0 min_points); [discriminate | lia].
  - inversion H; assumption.
Qed.

Lemma draw_loop_emits min_points total contours :
  drawable min_points contours ->
  forall i drawn,
    emits (draw_loop min_points total i contours drawn)
      (concat (map contour_cmds (filter (passes min_points) contours)))
      (progress_msgs min_points total i contours drawn)
      []
      (inl (drawn + length (filter (passes min_points) contours))%nat).
Proof.
  induction contours as [|c rest IH]; intros Hd i drawn.
  - cbn. rewrite Nat.add_0_r. apply emits_ret.
  - cbn [draw_loop progress_msgs filter].
    pose proof (drawable_head _ _ _ Hd) as Hne.
    specialize (IH (drawable_tail _ _ _ Hd)).
    assert (Hp : (Z.of_nat (length c) <? min_points) = negb (passes min_points c))
      by (unfold passes; now rewrite negb_involutive).
    rewrite Hp. destruct (passes min_points c) eqn:E; cbn [negb].
    2: apply IH.
    + destruct c as [|p0 ps]; [exfalso; apply Hne; reflexivity|].
      cbn [map concat length].
      replace (drawn + S (length (filter (passes min_points) rest)))%nat
        with (S drawn + length (filter (passes min_points) rest))%nat by lia.
      eapply emits_eq.
      * eapply emits_bind; [apply draw_contour_emits|].
        eapply (emits_bind _ _ tt []
                  (if (S drawn mod 5 =? 0)%nat
                   then [MsgProgress (i + 1) total] else []) []);
          [|apply (IH (S i) (S drawn))].
        destruct (S drawn mod 5 =? 0)%nat;
          [apply emits_update_status | apply emits_ret].
      * reflexivity.
      * reflexivity.
      * reflexivity.
Qed.

Lemma draw_toolpath_emits contours min_points :
  drawable min_points contours ->
  emits (draw_toolpath contours min_points)
    (concat (map contour_cmds (filter (passes min_points) contours))
     ++ home_cmds)
    (MsgRunning :: progress_msgs min_points (length contours) 0 contours 0
     ++ [MsgDrew (length (filter (passes min_points) contours))])
    [] (inl tt).
Proof.
  intros Hd. unfold draw_toolpath, home_cmds.
  eapply emits_eq.
  - eapply emits_bind; [apply emits_update_status|].
    eapply emits_bind; [apply (draw_loop_emits _ _ _ Hd 0%nat 0%nat)|].
    eapply emits_bind; [apply emits_tool_do|].
    eapply emits_bind; [apply emits_tool_do|].
    eapply emits_bind; [apply emits_tool_do|].
    apply emits_update_status.
  - reflexivity.
  - reflexivity.
  - reflexivity.
Qed.

Lemma passes_spec min_points c :
  passes min_points c = true <-> min_points <= Z.of_nat (length c).
Proof.
  unfold passes. rewrite negb_true_iff, Z.ltb_ge. reflexivity.
Qed.

Lemma drawable_filter min_points contours :
  drawable min_points contours ->
  Forall (fun c => c <> []) (filter (passes min_points) contours).
Proof.
  induction contours as [|c rest IH]; intros Hd; cbn [filter]; [constructor|].
  specialize (IH (drawable_tail _ _ _ Hd)).
  destruct (passes min_points c) eqn:E; [|exact IH].
  constructor; [exact (drawable_head _ _ _ Hd E) | exact IH].
Qed.

(** *** The progress texts *)

Lemma progress_msgs_total min_points total contours :
  forall i drawn,
    Forall (fun msg => exists n, msg = MsgProgress n total)
      (progress_msgs min_points total i contours drawn).
Proof.
  induction contours as [|c rest IH]; intros i drawn; cbn [progress_msgs];
    [constructor|].
  destruct (passes min_points c); [|apply IH].
  apply Forall_app. split; [|apply IH].
  destruct (S drawn mod 5 =? 0)%nat; repeat constructor. eauto.
Qed.

Lemma div5_succ d :
  (S d / 5 = d / 5 + (if S d mod 5 =? 0 then 1 else 0))%nat.
Proof.
  pose proof (Nat.div_mod_eq (S d) 5) as H1.
  pose proof (Nat.div_mod_eq d 5) as H2.
  pose proof (Nat.mod_upper_bound (S d) 5 ltac:(lia)) as B1.
  pose proof (Nat.mod_upper_bound d 5 ltac:(lia)) as B2.
  destruct (Nat.eqb_spec (S d mod 5) 0); lia.
Qed.

(** One progress text for every fifth drawn contour. *)
Lemma progress_msgs_length min_points total contours :
  forall i drawn,
    length (progress_msgs min_points total i contours drawn) =
    ((drawn + length (filter (passes min_points) contours)) / 5 - drawn / 5)%nat.
Proof.
  induction contours as [|c rest IH]; intros i drawn;
    cbn [progress_msgs filter].
  - cbn [length]. rewrite Nat.add_0_r. lia.
  - destruct (passes min_points c).
    + rewrite length_app, IH. cbn [length].
      replace (drawn + S (length (filter (passes min_points) rest)))%nat
        with (S drawn + length (filter (passes min_points) rest))%nat by lia.
      pose proof (Nat.Div0.div_le_mono (S drawn)
                    (S drawn + length (filter (passes min_points) rest)) 5
                    ltac:(lia)) as Hmono.
      rewrite (div5_succ drawn) in Hmono |- *.
      destruct (S drawn mod 5 =? 0)%nat; cbn [length]; lia.
    + apply IH.
Qed.

(** *** What the turtle draws *)

Lemma run_tool_app s a b :
  run_tool s (a ++ b) = run_tool (run_tool s a) b.
Proof. apply fold_left_app. Qed.

Lemma run_gotos_down ps :
  forall pos cur fin,
    run_tool (mkPen pos true cur fin)
      (map (fun p => Goto (fst p) (snd p)) ps) =
    mkPen (fold_left (fun _ p => p) ps pos) true (cur ++ ps) fin.
Proof.
  induction ps as [|[x y] ps IH]; intros pos cur fin.
  - cbn. now rewrite app_nil_r.
  - cbn [map run_tool fold_left exec pen_down current finished fst snd].
    change (fold_left exec ?l ?s) with (run_tool s l).
    rewrite IH, <- app_assoc. reflexivity.
Qed.

(** Drawing a contour adds one path: the contour, then its first point. *)
Lemma run_contour_cmds s p0 ps :
  run_tool s (contour_cmds (p0 :: ps)) =
  mkPen p0 true (closed_loop (p0 :: ps)) (paths s).
Proof.
  destruct p0 as [x0 y0].
  unfold contour_cmds. cbn [fst snd].
  change ([PenUp; Goto x0 y0; PenDown; SetColor "blue"] ++ ?l)
    with ([PenUp; Goto x0 y0; PenDown; SetColor "blue"] ++ l).
  rewrite !run_tool_app.
  assert (H0 : run_tool s [PenUp; Goto x0 y0; PenDown; SetColor "blue"] =
               mkPen (x0, y0) true [(x0, y0)] (paths s)).
  { destruct s as [pos [|] cur fin]; cbn; unfold paths; cbn;
      [reflexivity | now rewrite app_nil_r]. }
  rewrite H0, run_gotos_down. cbn. unfold closed_loop. cbn [firstn app].
  reflexivity.
Qed.

Lemma paths_run_contours contours :
  Forall (fun c => c <> []) contours ->
  forall s,
    paths (run_tool s (concat (map contour_cmds contours))) =
    paths s ++ map closed_loop contours.
Proof.
  induction 1 as [|c rest Hc Hrest IH]; intros s.
  - cbn. now rewrite app_nil_r.
  - cbn [map concat]. rewrite run_tool_app, IH.
    destruct c as [|p0 ps]; [contradiction|].
    rewrite run_contour_cmds. unfold paths at 1. cbn [finished pen_down current].
    rewrite <- app_assoc. reflexivity.
Qed.

(** Going home draws nothing and leaves the pen up at the origin. *)
Lemma run_home s :
  run_tool s home_cmds = mkPen (Z2F 0, Z2F 0) false
                           (if pen_down s then [] else current s) (paths s).
Proof.
  destruct s as [pos [|] cur fin]; cbn; unfold paths; cbn;
    [reflexivity | now rewrite app_nil_r].
Qed.

Lemma paths_run_toolpath contours s :
  Forall (fun c => c <> []) contours ->
  paths (run_tool s (concat (map contour_cmds contours) ++ home_cmds)) =
  paths s ++ map closed_loop contours.
Proof.
  intros H. rewrite run_tool_app, run_home. unfold paths at 1.
  cbn [finished pen_down]. rewrite app_nil_r. apply paths_run_contours, H.
Qed.

(** ** The path filter *)

Lemma passes_leb min_points c :
  passes min_points c = (min_points <=? Z.of_nat (length c)).
Proof. unfold passes. now rewrite Z.leb_antisym. Qed.

(** C3, as the code has it.  When no empty contour passes the test
    ([min_points >= 1], or no contour is empty), [draw_toolpath] returns
    normally and the tool calls it makes are those of the contours with at
    least [min_points] points, each drawn once, in the order of the list,
    followed by the return home: the paths drawn are these contours.  A
    contour is drawn iff it is in the list with [min_points] points or
    more, and when every contour is shorter than [min_points] nothing is
    drawn. *)
Theorem path_filter_correct contours min_points m :
  drawable min_points contours ->
  exists m' toolpath,
    draw_toolpath contours min_points m = (m', inl tt) /\
    tool m' = tool m ++ concat (map contour_cmds toolpath) ++ home_cmds /\
    (forall pen,
       paths (run_tool pen (concat (map contour_cmds toolpath) ++ home_cmds)) =
       paths pen ++ map closed_loop toolpath) /\
    toolpath = filter (fun c => min_points <=? Z.of_nat (length c)) contours /\
    (forall c,
       In c toolpath <-> In c contours /\ min_points <= Z.of_nat (length c)) /\
    ((forall c, In c contours -> Z.of_nat (length c) < min_points) ->
     toolpath = [] /\ tool m' = tool m ++ home_cmds).
Proof.
  intros Hd. pose proof (draw_toolpath_emits _ _ Hd m) as Hrun.
  eexists. exists (filter (passes min_points) contours).
  split; [exact Hrun|]. cbn [tool]. split; [reflexivity|].
  split; [intros pen; apply paths_run_toolpath, drawable_filter, Hd|].
  split; [apply filter_ext, passes_leb|].
  split.
  - intros c. rewrite filter_In, passes_spec. reflexivity.
  - intros Hshort.
    assert (Hnil : filter (passes min_points) contours = []).
    { apply filter_none. intros c Hc. specialize (Hshort c Hc).
      unfold passes. apply negb_false_iff, Z.ltb_lt. exact Hshort. }
    rewrite Hnil. split; reflexivity.
Qed.

(** With [min_points = 10] the open path is drawn and the speck is not. *)
Lemma path_filter_correct_witness :
  exists m',
    draw_toolpath [open_path; speck] 10 machine0 = (m', inl tt) /\
    tool m' = contour_cmds open_path ++ home_cmds.
Proof.
  destruct (path_filter_correct [open_path; speck] 10 machine0
              ltac:(left; lia)) as (m' & toolpath & H1 & H2 & _ & H4 & _).
  exists m'. split; [exact H1|].
  rewrite H2, H4. reflexivity.
Defined.

(** With [min_points = 1000] and contours of at most 200 points nothing is
    drawn: the tool only goes home. *)
Example path_filter_min_1000 :
  draw_toolpath [open_path; speck] 1000 machine0 =
  (mkMachine home_cmds [MsgRunning; MsgDrew 0] [], inl tt).
Proof. reflexivity. Qed.

(** An empty contour passes the test when [min_points] is [0], and
    [draw_toolpath] then raises [IndexError] instead of keeping it. *)
Lemma path_filter_empty_contour :
  passes 0 [] = true /\
  draw_toolpath [[]] 0 machine0 =
  (mkMachine [PenUp] [MsgRunning] [], inr IndexError).
Proof. split; reflexivity. Qed.

(** C10. Every contour that passes the test is drawn as a closed loop: the
    pen-down path goes through the points of the contour in order and then
    back to the first one, whether or not the contour ends where it
    starts. *)
Theorem drawn_paths_closed contours min_points m pen :
  drawable min_points contours ->
  exists m' cmds,
    draw_toolpath contours min_points m = (m', inl tt) /\
    tool m' = tool m ++ cmds /\
    paths (run_tool pen cmds) =
      paths pen ++ map closed_loop (filter (passes min_points) contours) /\
    forall c,
      In c (filter (passes min_points) contours) ->
      exists p0 ps, c = p0 :: ps /\ closed_loop c = p0 :: ps ++ [p0].
Proof.
  intros Hd. pose proof (draw_toolpath_emits _ _ Hd m) as Hrun.
  eexists. eexists. split; [exact Hrun|]. cbn [tool]. split; [reflexivity|].
  split; [apply paths_run_toolpath, drawable_filter, Hd|].
  intros c Hc.
  pose proof (drawable_filter _ _ Hd) as Hne.
  rewrite Forall_forall in Hne. specialize (Hne c Hc).
  destruct c as [|p0 ps]; [contradiction|].
  exists p0, ps. split; reflexivity.
Qed.

(** The open path runs from [(0, 0)] to [(9, 81)]; the path drawn for it ends
    at [(0, 0)] again. *)
Lemma drawn_paths_closed_witness :
  exists m' cmds,
    draw_toolpath [open_path; speck] 10 machine0 = (m', inl tt) /\
    tool m' = cmds /\
    paths (run_tool pen0 cmds) =
      [[(0%float, 0%float)]; open_path ++ [(0%float, 0%float)]] /\
    last open_path (0%float, 0%float) = (9%float, 81%float).
Proof.
  destruct (drawn_paths_closed [open_path; speck] 10 machine0 pen0
              ltac:(left; lia)) as (m' & cmds & H1 & H2 & H3 & _).
  exists m', cmds. split; [exact H1|]. split; [exact H2|].
  split; [exact H3 | reflexivity].
Defined.

(** ** The counts *)

(** C8, as the code has it.  [draw_toolpath] returns nothing.  When no empty
    contour passes the test, the last status text it writes carries the
    number of contours drawn; the total number of contours is carried by
    the progress texts only, and one progress text is written for every
    fifth contour drawn. *)
Theorem draw_toolpath_counts contours min_points m :
  drawable min_points contours ->
  exists m' progress,
    draw_toolpath contours min_points m = (m', inl tt) /\
    status m' =
      status m ++ MsgRunning :: progress
      ++ [MsgDrew (length (filter (passes min_points) contours))] /\
    Forall (fun msg => exists n, msg = MsgProgress n (length contours))
      progress /\
    length progress = (length (filter (passes min_points) contours) / 5)%nat.
Proof.
  intros Hd. pose proof (draw_toolpath_emits _ _ Hd m) as Hrun.
  eexists. eexists. split; [exact Hrun|]. cbn [status].
  split; [reflexivity|]. split.
  - apply progress_msgs_total.
  - rewrite progress_msgs_length. cbn. lia.
Qed.

Lemma draw_toolpath_counts_witness :
  exists m',
    draw_toolpath [open_path; speck] 10 machine0 = (m', inl tt) /\
    status m' = [MsgRunning; MsgDrew 1].
Proof.
  destruct (draw_toolpath_counts [open_path; speck] 10 machine0
              ltac:(left; lia)) as (m' & progress & H1 & H2 & _ & H4).
  exists m'. split; [exact H1|].
  destruct progress; [exact H2 | discriminate H4].
Defined.

(** Two contours, one drawn: no text carries the total [2]. *)
Lemma draw_toolpath_total_not_reported :
  draw_toolpath [open_path; speck] 10 machine0 =
    (mkMachine (contour_cmds open_path ++ home_cmds)
       [MsgRunning; MsgDrew 1] [], inl tt) /\
  ~ In (MsgProgress 2 2) [MsgRunning; MsgDrew 1] /\
  ~ (exists n total, In (MsgProgress n total) [MsgRunning; MsgDrew 1]).
Proof.
  split; [reflexivity|]. split.
  - intros [H|[H|[]]]; discriminate H.
  - intros (n & total & [H|[H|[]]]); discriminate H.
Qed.

(** ** The pipeline *)

Section PipelineFacts.
Context {cv : OpenCV}.

Lemma edge_detection_fails img_path t1 t2 :
  imread img_path = None ->
  emits (edge_detection img_path t1 t2) [] [MsgLoading] [] (inr load_error).
Proof.
  intros E. unfold edge_detection. rewrite E.
  eapply emits_eq;
    [eapply emits_bind; [apply emits_update_status | apply emits_raise]
    | reflexivity..].
Qed.

Lemma edge_detection_loads img_path t1 t2 img :
  imread img_path = Some img ->
  emits (edge_detection img_path t1 t2) [] [MsgLoading] []
    (inl (edges_of img t1 t2, shape img)).
Proof.
  intros E. unfold edge_detection. rewrite E.
  eapply emits_eq;
    [eapply emits_bind; [apply emits_update_status | apply emits_ret]
    | reflexivity..].
Qed.

Lemma extract_contours_emits edges :
  emits (extract_contours edges) [] [MsgExtracting] []
    (inl (sorted contourArea Qltb true (findContours_LIST_SIMPLE edges))).
Proof.
  unfold extract_contours.
  eapply emits_eq;
    [eapply emits_bind; [apply emits_update_status | apply emits_ret]
    | reflexivity..].
Qed.

Lemma handler_emits e :
  emits (update_status (MsgError e) ;; print_error e) [] [MsgError e] [e]
    (inl tt).
Proof.
  eapply emits_eq;
    [eapply emits_bind; [apply emits_update_status | apply emits_print_error]
    | reflexivity..].
Qed.

(** The image does not load: the error is caught and reported. *)
Lemma generate_load_failure img_path canvas_size :
  imread img_path = None ->
  emits (generate_from_image img_path canvas_size)
    [] [MsgLoading; MsgError load_error] [load_error] (inl tt).
Proof.
  intros E. unfold generate_from_image.
  eapply emits_eq.
  - eapply emits_try_handles; [|apply handler_emits].
    apply emits_bind_raise. apply edge_detection_fails. exact E.
  - reflexivity.
  - reflexivity.
  - reflexivity.
Qed.

(** The image loads and [scale_coordinates] raises. *)
Lemma generate_scale_failure img_path canvas_size img e :
  imread img_path = Some img ->
  scale_coordinates (traced img) (shape img) canvas_size = inr e ->
  emits (generate_from_image img_path canvas_size)
    [] [MsgLoading; MsgExtracting; MsgError e] [e] (inl tt).
Proof.
  intros E Hs. unfold generate_from_image.
  eapply emits_eq.
  - eapply emits_try_handles; [|apply handler_emits].
    eapply emits_bind; [apply edge_detection_loads; exact E|]. cbn beta iota.
    eapply emits_bind; [apply extract_contours_emits|].
    apply emits_bind_raise. fold (traced img). rewrite Hs. apply emits_lift.
  - reflexivity.
  - reflexivity.
  - reflexivity.
Qed.

(** The image loads and is scaled: the toolpath is drawn. *)
Lemma generate_draws img_path canvas_size img scaled :
  imread img_path = Some img ->
  scale_coordinates (traced img) (shape img) canvas_size = inl scaled ->
  emits (generate_from_image img_path canvas_size)
    (concat (map contour_cmds (filter (passes 10) scaled)) ++ home_cmds)
    ([MsgLoading; MsgExtracting; MsgRunning]
     ++ progress_msgs 10 (length scaled) 0 scaled 0
     ++ [MsgDrew (length (filter (passes 10) scaled)); MsgDone])
    [] (inl tt).
Proof.
  intros E Hs. unfold generate_from_image.
  apply emits_try_returns.
  eapply emits_eq.
  - eapply emits_bind; [apply edge_detection_loads; exact E|]. cbn beta iota.
    eapply emits_bind; [apply extract_contours_emits|].
    eapply emits_bind; [fold (traced img); rewrite Hs; apply emits_lift|].
    eapply emits_bind;
      [apply (draw_toolpath_emits scaled 10); left; lia|].
    apply emits_update_status.
  - cbn [app]. now rewrite app_nil_r.
  - cbn [app]. rewrite <- app_assoc. reflexivity.
  - reflexivity.
Qed.

(** Whatever the input, [generate_from_image] returns normally, and what it
    adds to the machine does not depend on the machine. *)
Lemma generate_always_returns img_path canvas_size :
  exists t s o,
    emits (generate_from_image img_path canvas_size) t s o (inl tt).
Proof.
  destruct (imread img_path) as [img|] eqn:E.
  - destruct (scale_coordinates (traced img) (shape img) canvas_size)
      as [scaled|e] eqn:Hs.
    + do 3 eexists. eapply generate_draws; eassumption.
    + do 3 eexists. eapply generate_scale_failure; eassumption.
  - do 3 eexists. apply generate_load_failure. exact E.
Qed.

(** The tool calls of a run draw the same paths on every turtle. *)
Lemma generate_draws_paths img_path canvas_size :
  exists cmds texts lines drawn,
    emits (generate_from_image img_path canvas_size) cmds texts lines
      (inl tt) /\
    forall pen, paths (run_tool pen cmds) = paths pen ++ drawn.
Proof.
  destruct (imread img_path) as [img|] eqn:E.
  - destruct (scale_coordinates (traced img) (shape img) canvas_size)
      as [scaled|e] eqn:Hs.
    + do 3 eexists. exists (map closed_loop (filter (passes 10) scaled)).
      split; [eapply generate_draws; eassumption|].
      intros pen. apply paths_run_toolpath, drawable_filter. left. lia.
    + do 3 eexists. exists [].
      split; [eapply generate_scale_failure; eassumption|].
      intros pen. cbn. now rewrite app_nil_r.
  - do 3 eexists. exists [].
    split; [apply generate_load_failure; exact E|].
    intros pen. cbn. now rewrite app_nil_r.
Qed.

(** C7. For a given image path and canvas size, every run of
    [generate_from_image] makes the same tool calls, with the same float
    coordinates, and these calls draw the same paths whatever state the turtle
    is in when the run starts, although what a turtle draws depends on where
    it is and on whether its pen is down.  So a second run on the same
    machine, which starts with the pen up at the origin where the first run
    left it and not with the pen down as [__init__] leaves it, makes the same
    calls and draws the same paths again. *)
Theorem generate_from_image_same_toolpath img_path canvas_size :
  exists cmds texts lines drawn,
    emits (generate_from_image img_path canvas_size) cmds texts lines
      (inl tt) /\
    (forall pen, paths (run_tool pen cmds) = paths pen ++ drawn) /\
    (forall m,
       tool (fst (generate_from_image img_path canvas_size m)) =
         tool m ++ cmds /\
       tool (fst (generate_from_image img_path canvas_size
                    (fst (generate_from_image img_path canvas_size m)))) =
         tool (fst (generate_from_image img_path canvas_size m)) ++ cmds) /\
    (forall pen,
       paths (run_tool pen (cmds ++ cmds)) = paths pen ++ drawn ++ drawn /\
       paths (run_tool (run_tool pen cmds) cmds) =
         paths (run_tool pen cmds) ++ drawn).
Proof.
  destruct (generate_draws_paths img_path canvas_size)
    as (cmds & texts & lines & drawn & Hrun & Hpaths).
  exists cmds, texts, lines, drawn.
  split; [exact Hrun|]. split; [exact Hpaths|]. split.
  - intros m. rewrite !Hrun. cbn [fst tool]. split; reflexivity.
  - intros pen. split.
    + rewrite run_tool_app, !Hpaths, <- app_assoc. reflexivity.
    + apply Hpaths.
Qed.

End PipelineFacts.

Section ErrorHandling.
Context {cv : OpenCV}.

(** C5, as the code has it.  [edge_detection] raises exactly when
    [cv2.imread] returns [None], at the load step, and the exception is the
    [ValueError] "Could not load image".  [generate_from_image] does not pass
    it on to its caller: no later stage runs (the tool is not touched, no
    other status text is written), the error is written on the status display
    and printed, and the call returns normally, as it does on every input.
    For an image that loads with a shape of positive size no error is
    reported. *)
Theorem load_error_is_caught img_path canvas_size m :
  (forall t1 t2,
     (exists e, snd (edge_detection img_path t1 t2 m) = inr e) <->
     imread img_path = None) /\
  (imread img_path = None ->
   (forall t1 t2,
      edge_detection img_path t1 t2 m =
      (mkMachine (tool m) (status m ++ [MsgLoading]) (console m),
       inr (ValueError "Could not load image"))) /\
   generate_from_image img_path canvas_size m =
     (mkMachine (tool m)
        (status m ++ [MsgLoading; MsgError (ValueError "Could not load image")])
        (console m ++ [ValueError "Could not load image"]),
      inl tt)) /\
  (forall img h w rest,
     imread img_path = Some img -> shape img = h :: w :: rest ->
     0 < Z.max h w ->
     exists m' s,
       generate_from_image img_path canvas_size m = (m', inl tt) /\
       status m' = status m ++ s ++ [MsgDone] /\
       (forall e, ~ In (MsgError e) s) /\
       console m' = console m) /\
  (exists m', generate_from_image img_path canvas_size m = (m', inl tt)).
Proof.
  split; [|split; [|split]].
  - intros t1 t2. destruct (imread img_path) as [img|] eqn:E.
    + rewrite (edge_detection_loads _ t1 t2 _ E m). cbn.
      split; [intros [e He]; discriminate | discriminate].
    + rewrite (edge_detection_fails _ t1 t2 E m). cbn.
      split; [reflexivity | eauto].
  - intros E. split.
    + intros t1 t2. rewrite (edge_detection_fails _ t1 t2 E m).
      rewrite !app_nil_r. reflexivity.
    + rewrite (generate_load_failure _ canvas_size E m).
      rewrite !app_nil_r. reflexivity.
  - intros img h w rest E Hshape Hmax.
    pose proof (scale_coordinates_map (traced img) h w rest canvas_size
                  ltac:(lia)) as Hs.
    rewrite <- Hshape in Hs.
    set (scaled := map (map (scale_point h w (scale_of canvas_size h w)))
                     (traced img)) in Hs.
    rewrite (generate_draws _ _ _ _ E Hs m).
    eexists. exists ([MsgLoading; MsgExtracting; MsgRunning]
                     ++ progress_msgs 10 (length scaled) 0 scaled 0
                     ++ [MsgDrew (length (filter (passes 10) scaled))]).
    split; [reflexivity|]. cbn [status console].
    split; [|split].
    + rewrite <- !app_assoc. reflexivity.
    + intros e Hin. cbn [app] in Hin.
      destruct Hin as [H|[H|[H|Hin]]]; try discriminate H.
      apply in_app_or in Hin. destruct Hin as [Hin|[H|[]]]; [|discriminate H].
      pose proof (progress_msgs_total 10 (length scaled) scaled 0%nat 0%nat) as Hp.
      rewrite Forall_forall in Hp. destruct (Hp _ Hin) as [n Hn]. discriminate Hn.
    + apply app_nil_r.
  - destruct (generate_always_returns img_path canvas_size)
      as (t & s & o & H).
    rewrite (H m). eauto.
Qed.

(** C6. When the image loads with a shape of positive size and the tracer
    finds no contour in its edge map, [extract_contours] returns the empty
    list and [generate_from_image] ends normally, with no error reported: the
    tool only goes home, which draws nothing.  [extract_contours] returns a
    list on every edge map. *)
Theorem blank_image_draws_nothing img_path canvas_size img h w rest m :
  imread img_path = Some img ->
  shape img = h :: w :: rest ->
  0 < Z.max h w ->
  findContours_LIST_SIMPLE (edges_of img 50 150) = [] ->
  snd (extract_contours (edges_of img 50 150) m) = inl [] /\
  generate_from_image img_path canvas_size m =
    (mkMachine (tool m ++ home_cmds)
       (status m
        ++ [MsgLoading; MsgExtracting; MsgRunning; MsgDrew 0; MsgDone])
       (console m),
     inl tt) /\
  (forall pen, paths (run_tool pen home_cmds) = paths pen) /\
  (forall edges m0, exists contours,
     snd (extract_contours edges m0) = inl contours).
Proof.
  intros E Hshape Hmax Hnone.
  assert (Ht : traced img = []) by (unfold traced; rewrite Hnone; reflexivity).
  split; [|split; [|split]].
  - rewrite extract_contours_eq. cbn [snd]. rewrite Hnone. reflexivity.
  - assert (Hs : scale_coordinates (traced img) (shape img) canvas_size = inl []).
    { rewrite Hshape, Ht. rewrite scale_coordinates_map by lia. reflexivity. }
    rewrite (generate_draws _ _ _ _ E Hs m). cbn. now rewrite app_nil_r.
  - intros pen. rewrite run_home. unfold paths. cbn. now rewrite app_nil_r.
  - intros edges m0. rewrite extract_contours_eq. cbn [snd]. eauto.
Qed.

End ErrorHandling.

(** A file that does not load, on the test double: the call returns
    normally. *)
Lemma load_error_not_raised :
  imread (OpenCV := stub_cv) "missing.png" = None /\
  generate_from_image (cv := stub_cv) "missing.png" 600%float machine0 =
    (mkMachine []
       [MsgLoading; MsgError (ValueError "Could not load image")]
       [ValueError "Could not load image"],
     inl tt) /\
  ~ (exists e,
       snd (generate_from_image (cv := stub_cv) "missing.png" 600%float
              machine0) = inr e).
Proof.
  split; [reflexivity|]. split; [reflexivity|].
  intros [e He]. discriminate He.
Qed.

Lemma load_error_is_caught_witness :
  generate_from_image (cv := stub_cv) "missing.png" 600%float machine0 =
    (mkMachine []
       [MsgLoading; MsgError (ValueError "Could not load image")]
       [ValueError "Could not load image"],
     inl tt) /\
  exists m' s,
    generate_from_image (cv := stub_cv) "white.png" 600%float machine0 =
      (m', inl tt) /\
    status m' = s ++ [MsgDone].
Proof.
  split.
  - destruct (load_error_is_caught (cv := stub_cv) "missing.png" 600%float
                machine0) as (_ & H & _).
    exact (proj2 (H eq_refl)).
  - destruct (load_error_is_caught (cv := stub_cv) "white.png" 600%float
                machine0) as (_ & _ & H & _).
    destruct (H white_image 100 100 [3] eq_refl eq_refl ltac:(lia))
      as (m' & s & H1 & H2 & _).
    exists m', s. split; [exact H1 | exact H2].
Defined.

(** The uniform 100x100 image of the test double. *)
Lemma blank_image_draws_nothing_witness :
  generate_from_image (cv := stub_cv) "white.png" 600%float machine0 =
    (mkMachine home_cmds
       [MsgLoading; MsgExtracting; MsgRunning; MsgDrew 0; MsgDone] [],
     inl tt).
Proof.
  exact (proj1 (proj2 (blank_image_draws_nothing (cv := stub_cv)
                         "white.png" 600%float white_image 100 100 [3]
                         machine0 eq_refl eq_refl ltac:(lia) eq_refl))).
Defined.

(* ================================================================== *)
(** * Part 3. Further properties of the methods *)
(* ================================================================== *)

(** ** More of the turtle: the ink

    The colour each line is drawn in: a [goto] made with the pen down draws a
    line in the colour the pen has at that moment. *)
Record Ink : Type := mkInk {
  ink_color : string;
  ink_down : bool;
  ink_lines : list string
}.

Definition exec_ink (s : Ink) (c : ToolCmd) : Ink :=
  match c with
  | PenUp => mkInk (ink_color s) false (ink_lines s)
  | PenDown => mkInk (ink_color s) true (ink_lines s)
  | Goto _ _ =>
      if ink_down s
      then mkInk (ink_color s) true (ink_lines s ++ [ink_color s])
      else s
  | SetColor c' => mkInk c' (ink_down s) (ink_lines s)
  end.

Definition run_ink (s : Ink) (cmds : list ToolCmd) : Ink :=
  fold_left exec_ink cmds s.

(** ** A second test double

    The tracer of this one finds three contours in every edge map, largest
    first: a frame of twelve points (area 900), a wedge of three points
    (area 6) and a dot. *)
Definition frame : Contour :=
  [(10, 10); (20, 10); (30, 10); (40, 10); (40, 20); (40, 30);
   (40, 40); (30, 40); (20, 40); (10, 40); (10, 30); (10, 20)].

Definition wedge : Contour := [(0, 0); (0, 3); (4, 0)].

Definition dot : Contour := [(5, 5)].

Definition shapes_cv : OpenCV := {|
  Mat := unit;
  imread := fun path => if String.eqb path "shapes.png" then Some tt else None;
  shape := fun _ => [100; 100; 3];
  cvtColor_BGR2GRAY := fun img => img;
  GaussianBlur := fun img _ _ => img;
  Canny := fun img _ _ => img;
  findContours_LIST_SIMPLE := fun _ => [frame; wedge; dot]
|}.

(** ** More on the ordering of the contours *)

Lemma StronglySorted_app_inv {A} (R : A -> A -> Prop) l1 l2 :
  StronglySorted R (l1 ++ l2) ->
  StronglySorted R l1 /\ StronglySorted R l2 /\
  forall a b, In a l1 -> In b l2 -> R a b.
Proof.
  induction l1 as [|x l1 IH]; cbn [app]; intros H.
  - split; [constructor|]. split; [exact H|]. intros a b [].
  - inversion H as [|? ? Hs Hx]; subst.
    destruct (IH Hs) as (H1 & H2 & H12).
    rewrite Forall_app in Hx. destruct Hx as [Hx1 Hx2].
    split; [constructor; assumption|]. split; [exact H2|].
    intros a b [<-|Ha] Hb.
    + rewrite Forall_forall in Hx2. apply Hx2, Hb.
    + apply H12; assumption.
Qed.

Section SortedAgain.
Context {A K : Type} (key : A -> K) (lt : K -> K -> bool).

(** An element that is below nothing in the list is inserted at its end. *)
Lemma insert_last x l :
  Forall (fun y => key_le key lt y x) l -> insert key lt x l = l ++ [x].
Proof.
  induction 1 as [|y l Hy _ IH]; [reflexivity|].
  cbn [insert app]. unfold key_le in Hy. rewrite Hy, IH. reflexivity.
Qed.

Lemma fold_insert_sorted_input l :
  forall acc,
    StronglySorted (key_le key lt) (acc ++ l) ->
    fold_left (fun acc x => insert key lt x acc) l acc = acc ++ l.
Proof.
  induction l as [|x l IH]; intros acc Hs; cbn [fold_left].
  - now rewrite app_nil_r.
  - destruct (StronglySorted_app_inv _ _ _ Hs) as (_ & _ & Hle).
    rewrite insert_last.
    + rewrite IH; rewrite <- app_assoc; [reflexivity | exact Hs].
    + rewrite Forall_forall. intros y Hy. apply Hle; [exact Hy | now left].
Qed.

(** A list already in descending order of the keys comes out of
    [sorted(..., reverse=True)] as it went in. *)
Lemma sorted_reverse_sorted_input l :
  StronglySorted (fun a b => key_le key lt b a) l ->
  sorted key lt true l = l.
Proof.
  intros Hs. unfold sorted, sort_stable.
  rewrite fold_insert_sorted_input.
  - cbn [app]. apply rev_involutive.
  - cbn [app]. apply (StronglySorted_rev _ _ Hs).
Qed.

End SortedAgain.

Lemma a00_one p : a00 [p] = 0.
Proof. unfold a00, cross. cbn. ring. Qed.

Lemma a00_two p q : a00 [p; q] = 0.
Proof. unfold a00, cross. cbn. ring. Qed.

(** A contour of one or two points encloses nothing. *)
Lemma contourArea_degenerate c :
  (length c <= 2)%nat -> (contourArea c == 0)%Q.
Proof.
  intros Hlen. destruct c as [|p [|q [|r c]]].
  - reflexivity.
  - unfold contourArea. rewrite a00_one. reflexivity.
  - unfold contourArea. rewrite a00_two. reflexivity.
  - cbn [length] in Hlen. lia.
Qed.

Section ContourOrder.
Context {cv : OpenCV}.

(** X2. When the tracer already returns its contours in descending order of
    area, [extract_contours] returns them unchanged: contours of equal area
    are not moved either. *)
Theorem extract_contours_keeps_sorted edges m :
  StronglySorted (fun a b => (contourArea a >= contourArea b)%Q)
    (findContours_LIST_SIMPLE edges) ->
  snd (extract_contours edges m) = inl (findContours_LIST_SIMPLE edges).
Proof.
  intros Hs. rewrite extract_contours_eq. cbn [snd]. f_equal.
  apply sorted_reverse_sorted_input.
  eapply StronglySorted_weaken; [|exact Hs].
  intros a b H. apply key_le_area. exact H.
Qed.

(** X3. In the list [extract_contours] returns, nothing but contours of area
    zero follows a contour of one or two points: every contour that encloses
    some area is drawn before every such degenerate contour. *)
Theorem extract_contours_degenerate_last edges m :
  exists contours,
    snd (extract_contours edges m) = inl contours /\
    forall before c after,
      contours = before ++ c :: after ->
      (length c <= 2)%nat ->
      Forall (fun d => (contourArea d == 0)%Q) after /\
      forall d, (0 < contourArea d)%Q -> In d contours -> In d before.
Proof.
  rewrite extract_contours_eq. cbn [snd]. eexists. split; [reflexivity|].
  intros before c after Hsplit Hlen.
  pose proof (sorted_reverse_sorted contourArea Qltb Qltb_asym Qltb_nlt_trans
                (findContours_LIST_SIMPLE edges)) as Hs.
  rewrite Hsplit in Hs |- *.
  destruct (StronglySorted_app_inv _ _ _ Hs) as (_ & Hs2 & _).
  inversion Hs2 as [|? ? _ Hc]; subst.
  pose proof (contourArea_degenerate c Hlen) as Hzero.
  assert (Hafter : Forall (fun d => (contourArea d == 0)%Q) after).
  { eapply Forall_impl; [|exact Hc]. intros d Hd.
    apply key_le_area in Hd. rewrite Hzero in Hd.
    apply Qle_antisym; [exact Hd | apply contourArea_nonneg]. }
  split; [exact Hafter|].
  intros d Hpos Hin. apply in_app_or in Hin.
  destruct Hin as [Hin|[<-|Hin]]; [exact Hin | |].
  - rewrite Hzero in Hpos. exfalso. exact (Qlt_irrefl _ Hpos).
  - rewrite Forall_forall in Hafter. rewrite (Hafter d Hin) in Hpos.
    exfalso. exact (Qlt_irrefl _ Hpos).
Qed.

End ContourOrder.

(** After the dot nothing follows, and the frame, which encloses an area,
    is among the contours before the dot. *)
Lemma extract_contours_degenerate_last_witness :
  In frame [frame; wedge].
Proof.
  destruct (extract_contours_degenerate_last (cv := shapes_cv) tt machine0)
    as (contours & H1 & H2).
  assert (E : contours = [frame; wedge] ++ dot :: [])
    by (cbn in H1; injection H1 as <-; reflexivity).
  destruct (H2 [frame; wedge] dot [] E ltac:(cbn; lia)) as [_ Hpos].
  apply Hpos.
  - reflexivity.
  - rewrite E. now left.
Defined.

Lemma extract_contours_keeps_sorted_witness :
  snd (extract_contours (cv := shapes_cv) tt machine0)
  = inl [frame; wedge; dot].
Proof.
  apply (extract_contours_keeps_sorted (cv := shapes_cv) tt machine0).
  repeat constructor; cbn; discriminate.
Defined.

(** ** [draw_toolpath] on an empty contour *)

(** With [min_points <= 0] every contour passes the test. *)
Lemma passes_all min_points (c : ScaledContour) :
  min_points <= 0 -> passes min_points c = true.
Proof. intros H. apply passes_spec. lia. Qed.

Lemma filter_passes_all min_points contours :
  min_points <= 0 -> filter (passes min_points) contours = contours.
Proof.
  intros H. induction contours as [|c rest IH]; cbn [filter]; [reflexivity|].
  rewrite passes_all by assumption. now rewrite IH.
Qed.

(** The first empty contour of a list. *)
Lemma first_empty_contour (contours : list ScaledContour) :
  Exists (fun c => c = []) contours ->
  exists before after,
    contours = before ++ [] :: after /\ Forall (fun c => c <> []) before.
Proof.
  induction 1 as [c rest Hc | c rest _ IH].
  - subst c. exists [], rest. split; [reflexivity | constructor].
  - destruct c as [|p0 ps].
    + exists [], rest. split; [reflexivity | constructor].
    + destruct IH as (before & after & -> & Hne).
      exists ((p0 :: ps) :: before), after.
      split; [reflexivity | constructor; [discriminate | exact Hne]].
Qed.

Lemma not_drawable min_points (contours : list ScaledContour) :
  ~ drawable min_points contours <->
  min_points <= 0 /\ Exists (fun c => c = []) contours.
Proof.
  unfold drawable. split.
  - intros H. split; [lia|].
    apply Exists_exists.
    assert (Hdec : forall l : list ScaledContour,
               Forall (fun c => c <> []) l \/ exists c, In c l /\ c = []).
    { induction l as [|[|p ps] l [IH|(c & Hc & E)]].
      - left. constructor.
      - right. exists []. split; [now left | reflexivity].
      - right. exists []. split; [now left | reflexivity].
      - left. constructor; [discriminate | exact IH].
      - right. exists c. split; [now right | exact E]. }
    destruct (Hdec contours) as [Hall|Hex]; [|exact Hex].
    exfalso. apply H. right. exact Hall.
  - intros [Hmp Hex] [H|H]; [lia|].
    apply Exists_exists in Hex. destruct Hex as (c & Hin & ->).
    rewrite Forall_forall in H. exact (H [] Hin eq_refl).
Qed.

Lemma draw_loop_raises min_points total before after :
  min_points <= 0 ->
  Forall (fun c => c <> []) before ->
  forall i drawn,
    emits (draw_loop min_points total i (before ++ [] :: after) drawn)
      (concat (map contour_cmds before) ++ [PenUp])
      (progress_msgs min_points total i before drawn)
      [] (inr IndexError).
Proof.
  intros Hmp. induction 1 as [|c rest Hc Hrest IH]; intros i drawn.
  - cbn [app draw_loop length map concat progress_msgs].
    replace (Z.of_nat 0 <? min_points) with false
      by (symmetry; apply Z.ltb_ge; cbn; lia).
    apply emits_bind_raise. apply draw_contour_empty.
  - cbn [app draw_loop progress_msgs map concat].
    rewrite (passes_all min_points c Hmp).
    replace (Z.of_nat (length c) <? min_points) with false
      by (symmetry; apply Z.ltb_ge; lia).
    destruct c as [|p0 ps]; [contradiction|].
    eapply emits_eq.
    + eapply emits_bind; [apply draw_contour_emits|].
      eapply (emits_bind _ _ tt []
                (if (S drawn mod 5 =? 0)%nat
                 then [MsgProgress (i + 1) total] else []) []);
        [|apply (IH (S i) (S drawn))].
      destruct (S drawn mod 5 =? 0)%nat;
        [apply emits_update_status | apply emits_ret].
    + change ([] ++ ?x) with x. now rewrite app_assoc.
    + reflexivity.
    + reflexivity.
Qed.

Lemma draw_toolpath_raises min_points before after :
  min_points <= 0 ->
  Forall (fun c => c <> []) before ->
  emits (draw_toolpath (before ++ [] :: after) min_points)
    (concat (map contour_cmds before) ++ [PenUp])
    (MsgRunning
     :: progress_msgs min_points (length (before ++ [] :: after)) 0 before 0)
    [] (inr IndexError).
Proof.
  intros Hmp Hne. unfold draw_toolpath.
  eapply emits_eq.
  - eapply emits_bind; [apply emits_update_status|].
    apply emits_bind_raise.
    apply (draw_loop_raises _ _ _ _ Hmp Hne 0%nat 0%nat).
  - reflexivity.
  - reflexivity.
  - reflexivity.
Qed.

(** X4. [draw_toolpath] raises exactly when [min_points <= 0] and some
    contour of the list is empty, and what it raises then is [IndexError];
    in every other case it returns normally. *)
Theorem draw_toolpath_raises_iff contours min_points m :
  ((exists e, snd (draw_toolpath contours min_points m) = inr e) <->
   min_points <= 0 /\ Exists (fun c => c = []) contours) /\
  (forall e, snd (draw_toolpath contours min_points m) = inr e ->
             e = IndexError) /\
  (snd (draw_toolpath contours min_points m) = inl tt <->
   1 <= min_points \/ Forall (fun c => c <> []) contours).
Proof.
  destruct (Z_le_gt_dec min_points 0) as [Hmp|Hmp].
  - assert (Hdec : Exists (fun c : ScaledContour => c = []) contours \/
                   Forall (fun c : ScaledContour => c <> []) contours).
    { induction contours as [|[|p ps] l [IH|IH]].
      - right. constructor.
      - left. now constructor.
      - left. now constructor.
      - left. now constructor 2.
      - right. constructor; [discriminate | exact IH]. }
    destruct Hdec as [Hex|Hall].
    + destruct (first_empty_contour _ Hex) as (before & after & E & Hne).
      pose proof (draw_toolpath_raises _ _ after Hmp Hne m) as Hrun.
      rewrite <- E in Hrun. rewrite Hrun. cbn [snd].
      split; [split; eauto|]. split; [intros e H; congruence|].
      split; [discriminate|]. intros [H|H]; [lia|]. exfalso.
      apply (proj2 (not_drawable min_points contours)); [auto | now right].
    + rewrite (draw_toolpath_emits _ _ (or_intror Hall) m). cbn [snd].
      split; [split|].
      * intros [e H]. discriminate H.
      * intros [_ Hex]. exfalso.
        apply (proj2 (not_drawable min_points contours)); [auto | now right].
      * split; [intros e H; discriminate H | split; auto].
  - assert (H1 : 1 <= min_points) by lia.
    rewrite (draw_toolpath_emits contours min_points (or_introl H1) m).
    cbn [snd]. split; [split|].
    + intros [e H]. discriminate H.
    + intros [H _]. lia.
    + split; [intros e H; discriminate H | split; [left; lia | auto]].
Qed.

(** X5. When [draw_toolpath] raises, the contours before the first empty one
    have all been drawn, as closed loops; the pen has been raised and left
    where the last loop ended: the tool is not sent home, the contours after
    the empty one are not drawn and no completion text is written. *)
Theorem draw_toolpath_stops_at_empty min_points before after m pen :
  min_points <= 0 ->
  Forall (fun c => c <> []) before ->
  exists m' cmds texts,
    draw_toolpath (before ++ [] :: after) min_points m =
      (m', inr IndexError) /\
    tool m' = tool m ++ cmds /\
    cmds = concat (map contour_cmds before) ++ [PenUp] /\
    paths (run_tool pen cmds) = paths pen ++ map closed_loop before /\
    pen_down (run_tool pen cmds) = false /\
    pen_pos (run_tool pen cmds) =
      pen_pos (run_tool pen (concat (map contour_cmds before))) /\
    status m' = status m ++ MsgRunning :: texts /\
    (forall n, ~ In (MsgDrew n) texts) /\
    console m' = console m.
Proof.
  intros Hmp Hne.
  pose proof (draw_toolpath_raises _ _ after Hmp Hne m) as Hrun.
  do 3 eexists. split; [exact Hrun|]. cbn [tool status console].
  split; [reflexivity|]. split; [reflexivity|].
  rewrite run_tool_app.
  set (s := run_tool pen (concat (map contour_cmds before))).
  assert (Hs : paths s = paths pen ++ map closed_loop before)
    by (apply paths_run_contours, Hne).
  split; [|split; [|split; [|split; [|split]]]].
  - rewrite <- Hs. destruct s as [pos [|] cur fin]; cbn; unfold paths; cbn;
      [now rewrite app_nil_r | reflexivity].
  - destruct s as [pos [|] cur fin]; reflexivity.
  - destruct s as [pos [|] cur fin]; reflexivity.
  - reflexivity.
  - intros n Hin.
    pose proof (progress_msgs_total min_points
                  (length (before ++ [] :: after)) before 0%nat 0%nat) as Hp.
    rewrite Forall_forall in Hp. destruct (Hp _ Hin) as [k Hk]. discriminate Hk.
  - apply app_nil_r.
Qed.

Lemma draw_toolpath_stops_at_empty_witness :
  exists m',
    draw_toolpath [speck; []; open_path] 0 machine0 = (m', inr IndexError) /\
    tool m' = contour_cmds speck ++ [PenUp] /\
    status m' = [MsgRunning].
Proof.
  destruct (draw_toolpath_stops_at_empty 0 [speck] [open_path] machine0 pen0
              ltac:(lia) ltac:(repeat constructor; discriminate))
    as (m' & cmds & texts & H1 & H2 & H3 & _ & _ & _ & H7 & _).
  exists m'. split; [exact H1|]. split.
  - rewrite H2, H3. reflexivity.
  - pose proof (f_equal (fun r => status (fst r)) H1) as Hst.
    cbn in Hst. symmetry. exact Hst.
Defined.

(** ** The state [draw_toolpath] leaves the tool in *)

Lemma run_ink_app s a b : run_ink s (a ++ b) = run_ink (run_ink s a) b.
Proof. apply fold_left_app. Qed.

Lemma run_ink_gotos_down ps :
  forall color lines,
    run_ink (mkInk color true lines)
      (map (fun p => Goto (fst p) (snd p)) ps) =
    mkInk color true (lines ++ repeat color (length ps)).
Proof.
  induction ps as [|p ps IH]; intros color lines.
  - cbn. now rewrite app_nil_r.
  - cbn [map run_ink fold_left exec_ink ink_down ink_color ink_lines].
    change (fold_left exec_ink ?l ?s) with (run_ink s l).
    rewrite IH, <- app_assoc. reflexivity.
Qed.

(** A contour of [n] points is drawn with [n] lines, all of them blue. *)
Lemma run_ink_contour s p0 ps :
  run_ink s (contour_cmds (p0 :: ps)) =
  mkInk "blue" true (ink_lines s ++ repeat "blue"%string (length (p0 :: ps))).
Proof.
  unfold contour_cmds.
  change ([PenUp; Goto (fst p0) (snd p0); PenDown; SetColor "blue"] ++ ?l)
    with ([PenUp; Goto (fst p0) (snd p0); PenDown; SetColor "blue"] ++ l).
  rewrite !run_ink_app.
  assert (H0 : run_ink s [PenUp; Goto (fst p0) (snd p0); PenDown;
                          SetColor "blue"] =
               mkInk "blue" true (ink_lines s)) by reflexivity.
  rewrite H0, run_ink_gotos_down. cbn.
  rewrite <- app_assoc. f_equal. f_equal.
  change ("blue"%string :: repeat "blue"%string (length ps))
    with (repeat "blue"%string (S (length ps))).
  rewrite <- repeat_cons. reflexivity.
Qed.

Lemma run_ink_contours contours :
  Forall (fun c => c <> []) contours ->
  forall s,
    ink_lines (run_ink s (concat (map contour_cmds contours))) =
    ink_lines s
    ++ repeat "blue"%string (list_sum (map (@length FPoint) contours)).
Proof.
  induction 1 as [|c rest Hc Hrest IH]; intros s.
  - cbn. now rewrite app_nil_r.
  - cbn [map concat list_sum]. rewrite run_ink_app, IH.
    destruct c as [|p0 ps]; [contradiction|].
    rewrite run_ink_contour. cbn [ink_lines].
    rewrite <- app_assoc, <- repeat_app. reflexivity.
Qed.

Lemma run_ink_home s :
  run_ink s home_cmds = mkInk "red" false (ink_lines s).
Proof. reflexivity. Qed.

(** X6. When [draw_toolpath] completes, whatever state the turtle was in
    before: it is left at the origin with the pen up and its colour set to
    red; every line it has drawn in between is blue; and a drawn contour of
    [n] points takes [n] lines, the closing one included. *)
Theorem draw_toolpath_leaves_tool_home contours min_points m :
  drawable min_points contours ->
  exists m' cmds,
    draw_toolpath contours min_points m = (m', inl tt) /\
    tool m' = tool m ++ cmds /\
    (forall pen,
       pen_pos (run_tool pen cmds) = (Z2F 0, Z2F 0) /\
       pen_down (run_tool pen cmds) = false) /\
    (forall ink,
       ink_color (run_ink ink cmds) = "red"%string /\
       ink_down (run_ink ink cmds) = false /\
       ink_lines (run_ink ink cmds) =
         ink_lines ink
         ++ repeat "blue"%string
              (list_sum (map (@length FPoint)
                           (filter (passes min_points) contours)))).
Proof.
  intros Hd. pose proof (draw_toolpath_emits _ _ Hd m) as Hrun.
  do 2 eexists. split; [exact Hrun|]. cbn [tool]. split; [reflexivity|].
  split.
  - intros pen. rewrite run_tool_app, run_home. split; reflexivity.
  - intros ink. rewrite run_ink_app, run_ink_home.
    cbn [ink_color ink_down ink_lines].
    split; [reflexivity|]. split; [reflexivity|].
    apply run_ink_contours, drawable_filter, Hd.
Qed.

Lemma draw_toolpath_leaves_tool_home_witness :
  exists m' cmds,
    draw_toolpath [open_path; speck] 10 machine0 = (m', inl tt) /\
    tool m' = cmds /\
    pen_pos (run_tool pen0 cmds) = (0%float, 0%float) /\
    ink_lines (run_ink (mkInk "red" true []) cmds) = repeat "blue"%string 10.
Proof.
  destruct (draw_toolpath_leaves_tool_home [open_path; speck] 10 machine0
              ltac:(left; lia)) as (m' & cmds & H1 & H2 & H3 & H4).
  exists m', cmds. split; [exact H1|]. split; [exact H2|].
  split; [exact (proj1 (H3 pen0))|].
  exact (proj2 (proj2 (H4 (mkInk "red" true [])))).
Defined.

(** ** The progress texts of [draw_toolpath] *)

(** A filter keeps the whole list exactly when every element passes. *)
Lemma filter_length_all {A} (p : A -> bool) l :
  length (filter p l) = length l <-> forall a, In a l -> p a = true.
Proof.
  induction l as [|x l IH]; cbn [filter length In].
  - split; [intros _ a [] | reflexivity].
  - pose proof (filter_length_le p l) as Hle.
    destruct (p x) eqn:E; cbn [length].
    + split.
      * intros H a [<-|Ha]; [exact E | apply IH; [lia | exact Ha]].
      * intros H. f_equal. apply IH. intros a Ha. apply H. now right.
    + split; [lia|]. intros H. rewrite (H x) in E by now left. discriminate.
Qed.

(** The numbers the progress texts of the loop show before the slash. *)
Fixpoint progress_positions (min_points : Z) (i : nat)
  (contours : list ScaledContour) (drawn : nat) : list nat :=
  match contours with
  | [] => []
  | c :: rest =>
      if passes min_points c
      then (if (S drawn mod 5 =? 0)%nat then [(i + 1)%nat] else [])
           ++ progress_positions min_points (S i) rest (S drawn)
      else progress_positions min_points (S i) rest drawn
  end.

Lemma progress_msgs_positions min_points total contours :
  forall i drawn,
    progress_msgs min_points total i contours drawn =
    map (fun n => MsgProgress n total)
      (progress_positions min_points i contours drawn).
Proof.
  induction contours as [|c rest IH]; intros i drawn;
    cbn [progress_msgs progress_positions map]; [reflexivity|].
  destruct (passes min_points c); [|apply IH].
  rewrite map_app, IH.
  destruct (S drawn mod 5 =? 0)%nat; reflexivity.
Qed.

Lemma mod5_zero_div d :
  (S d mod 5 =? 0)%nat = true -> (S d = 5 * (d / 5 + 1))%nat.
Proof.
  intros H. pose proof (div5_succ d) as Hd. rewrite H in Hd.
  apply Nat.eqb_eq in H.
  pose proof (Nat.div_mod_eq (S d) 5). lia.
Qed.

(** The text number [k] of the loop (counting from 0) is written when the
    count of drawn contours reaches the next multiple of 5 but [k], and it
    shows the position of the contour drawn last. *)
Lemma progress_positions_spec min_points contours :
  forall i drawn k n,
    nth_error (progress_positions min_points i contours drawn) k = Some n ->
    (i < n <= i + length contours)%nat /\
    (exists c, nth_error contours (n - 1 - i) = Some c /\
               passes min_points c = true) /\
    (drawn + length (filter (passes min_points) (firstn (n - i) contours))
     = 5 * (drawn / 5 + k + 1))%nat.
Proof.
  induction contours as [|c rest IH]; intros i drawn k n Hn;
    cbn [progress_positions] in Hn.
  - destruct k; discriminate Hn.
  - assert (Hstep : forall d k',
              nth_error (progress_positions min_points (S i) rest d) k'
                = Some n ->
              (i < n <= i + length (c :: rest))%nat /\
              (exists c', nth_error (c :: rest) (n - 1 - i) = Some c' /\
                          passes min_points c' = true) /\
              firstn (n - i) (c :: rest) = c :: firstn (n - S i) rest /\
              (d + length (filter (passes min_points) (firstn (n - S i) rest))
               = 5 * (d / 5 + k' + 1))%nat).
    { intros d k' H. destruct (IH (S i) d k' n H) as (Hr & (c' & Hc' & Hp) & Hcnt).
      cbn [length]. split; [lia|]. split; [|split; [|exact Hcnt]].
      - exists c'. split; [|exact Hp].
        replace (n - 1 - i)%nat with (S (n - 1 - S i)) by lia. exact Hc'.
      - replace (n - i)%nat with (S (n - S i)) by lia. reflexivity. }
    destruct (passes min_points c) eqn:Ep.
    + destruct (S drawn mod 5 =? 0)%nat eqn:E5.
      * destruct k as [|k]; cbn [app nth_error] in Hn.
        -- injection Hn as <-. cbn [length]. split; [lia|]. split.
           ++ exists c. replace (i + 1 - 1 - i)%nat with 0%nat by lia.
              split; [reflexivity | exact Ep].
           ++ replace (i + 1 - i)%nat with 1%nat by lia.
              cbn [firstn filter]. rewrite Ep. cbn [length].
              pose proof (mod5_zero_div drawn E5). lia.
        -- destruct (Hstep (S drawn) k Hn) as (Hr & Hc & Hf & Hcnt).
           split; [exact Hr|]. split; [exact Hc|].
           rewrite Hf. cbn [filter]. rewrite Ep. cbn [length].
           pose proof (div5_succ drawn) as Hd. rewrite E5 in Hd. lia.
      * cbn [app] in Hn.
        destruct (Hstep (S drawn) k Hn) as (Hr & Hc & Hf & Hcnt).
        split; [exact Hr|]. split; [exact Hc|].
        rewrite Hf. cbn [filter]. rewrite Ep. cbn [length].
        pose proof (div5_succ drawn) as Hd. rewrite E5 in Hd. lia.
    + destruct (Hstep drawn k Hn) as (Hr & Hc & Hf & Hcnt).
      split; [exact Hr|]. split; [exact Hc|].
      rewrite Hf. cbn [filter]. rewrite Ep. exact Hcnt.
Qed.

(** X7. The progress texts of [draw_toolpath] show positions in the list, not
    numbers of contours drawn.  The text number [k] (counting from 0) is
    [MsgProgress n total] where [total] is the length of the list and [n] is
    the position, counted from 1, of the contour whose drawing brought the
    number of contours drawn to [5 * (k + 1)]: that contour passes the test
    and exactly [5 * (k + 1)] of the first [n] contours do.  So
    [5 * (k + 1) <= n <= total], and [n] is larger than the number drawn as
    soon as an earlier contour was skipped. *)
Theorem draw_toolpath_progress_positions contours min_points m :
  drawable min_points contours ->
  exists m' ns,
    draw_toolpath contours min_points m = (m', inl tt) /\
    status m' =
      status m ++ MsgRunning
      :: map (fun n => MsgProgress n (length contours)) ns
      ++ [MsgDrew (length (filter (passes min_points) contours))] /\
    forall k n,
      nth_error ns k = Some n ->
      (exists c, nth_error contours (n - 1) = Some c /\
                 min_points <= Z.of_nat (length c)) /\
      length (filter (passes min_points) (firstn n contours))
        = (5 * (k + 1))%nat /\
      (5 * (k + 1) <= n <= length contours)%nat /\
      (n = (5 * (k + 1))%nat <->
       forall c, In c (firstn n contours) ->
                 min_points <= Z.of_nat (length c)).
Proof.
  intros Hd. pose proof (draw_toolpath_emits _ _ Hd m) as Hrun.
  rewrite progress_msgs_positions in Hrun.
  do 2 eexists. split; [exact Hrun|]. cbn [status]. split; [reflexivity|].
  intros k n Hn.
  destruct (progress_positions_spec _ _ _ _ _ _ Hn)
    as (Hr & (c & Hc & Hp) & Hcnt).
  rewrite Nat.sub_0_r in Hc, Hcnt.
  change (0 / 5)%nat with 0%nat in Hcnt. rewrite !Nat.add_0_l in Hcnt.
  assert (Hlen : length (firstn n contours) = n)
    by (apply firstn_length_le; lia).
  pose proof (filter_length_le (passes min_points) (firstn n contours)) as Hle.
  pose proof (filter_length_all (passes min_points) (firstn n contours))
    as Hall.
  split; [exists c; split; [exact Hc | apply passes_spec, Hp]|].
  split; [exact Hcnt|]. split; [lia|].
  rewrite Hcnt, Hlen in Hall. split.
  - intros Heq c' Hin. apply passes_spec.
    apply (proj1 Hall); [symmetry; exact Heq | exact Hin].
  - intros Hp'. symmetry. apply (proj2 Hall).
    intros c' Hin. apply passes_spec, Hp', Hin.
Qed.

(** Five specks with an empty contour, which is skipped, after each of the
    first four: the only progress text is written when the fifth speck is
    drawn and shows its position, 9, not the number drawn, 5. *)
Lemma draw_toolpath_progress_positions_witness :
  exists m',
    draw_toolpath [speck; []; speck; []; speck; []; speck; []; speck] 1
      machine0 = (m', inl tt) /\
    status m' = [MsgRunning; MsgProgress 9 9; MsgDrew 5].
Proof.
  destruct (draw_toolpath_progress_positions
              [speck; []; speck; []; speck; []; speck; []; speck] 1 machine0
              ltac:(left; lia)) as (m' & ns & H1 & H2 & H3).
  exists m'. split; [exact H1|].
  assert (Hst : status m' = [MsgRunning; MsgProgress 9 9; MsgDrew 5]).
  { pose proof (f_equal (fun r => status (fst r)) H1) as Hst.
    cbn in Hst. symmetry. exact Hst. }
  assert (Hns : ns = [9%nat]).
  { rewrite Hst in H2. cbn [status machine0 app] in H2.
    destruct ns as [|n [|n2 ns]]; cbn in H2.
    - discriminate H2.
    - injection H2 as ->. reflexivity.
    - injection H2 as _ H. destruct ns; discriminate H. }
  subst ns.
  destruct (H3 0%nat 9%nat eq_refl) as (_ & Hcount & _).
  rewrite H2. reflexivity.
Defined.

(** ** Raising [min_points] *)

Lemma filter_filter_passes lo hi (contours : list ScaledContour) :
  lo <= hi ->
  filter (passes hi) (filter (passes lo) contours) =
  filter (passes hi) contours.
Proof.
  intros Hle. induction contours as [|c rest IH]; cbn [filter]; [reflexivity|].
  destruct (passes lo c) eqn:Elo; cbn [filter]; rewrite IH; [reflexivity|].
  destruct (passes hi c) eqn:Ehi; [|reflexivity].
  apply passes_spec in Ehi.
  assert (passes lo c = true) by (apply passes_spec; lia). congruence.
Qed.

(** X8. Raising [min_points] only removes paths: what [draw_toolpath] draws
    with the higher value is what the filter with the higher value keeps of
    the contours drawn with the lower one, in the same order. *)
Theorem draw_toolpath_min_points_monotone contours lo hi m pen :
  lo <= hi ->
  drawable lo contours ->
  exists m1 m2 cmds1 cmds2 kept1 kept2,
    draw_toolpath contours lo m = (m1, inl tt) /\
    draw_toolpath contours hi m = (m2, inl tt) /\
    tool m1 = tool m ++ cmds1 /\
    tool m2 = tool m ++ cmds2 /\
    paths (run_tool pen cmds1) = paths pen ++ map closed_loop kept1 /\
    paths (run_tool pen cmds2) = paths pen ++ map closed_loop kept2 /\
    kept2 = filter (fun c => hi <=? Z.of_nat (length c)) kept1 /\
    (length kept2 <= length kept1)%nat.
Proof.
  intros Hle Hlo.
  assert (Hhi : drawable hi contours).
  { destruct Hlo as [H|H]; [left; lia | right; exact H]. }
  pose proof (draw_toolpath_emits _ _ Hlo m) as Hrun1.
  pose proof (draw_toolpath_emits _ _ Hhi m) as Hrun2.
  do 4 eexists.
  exists (filter (passes lo) contours), (filter (passes hi) contours).
  split; [exact Hrun1|]. split; [exact Hrun2|]. cbn [tool].
  split; [reflexivity|]. split; [reflexivity|].
  split; [apply paths_run_toolpath, drawable_filter, Hlo|].
  split; [apply paths_run_toolpath, drawable_filter, Hhi|].
  assert (E : filter (fun c : ScaledContour => hi <=? Z.of_nat (length c))
                (filter (passes lo) contours) =
              filter (passes hi) contours).
  { rewrite <- (filter_filter_passes lo hi contours Hle).
    apply filter_ext. intros c. symmetry. apply passes_leb. }
  split; [symmetry; exact E|].
  rewrite <- E. apply filter_length_le.
Qed.

Lemma draw_toolpath_min_points_monotone_witness :
  exists m1 m2,
    draw_toolpath [open_path; speck] 2 machine0 = (m1, inl tt) /\
    draw_toolpath [open_path; speck] 10 machine0 = (m2, inl tt) /\
    paths (run_tool pen0 (tool m1)) =
      [[(0%float, 0%float)]; closed_loop open_path; closed_loop speck] /\
    paths (run_tool pen0 (tool m2)) =
      [[(0%float, 0%float)]; closed_loop open_path].
Proof.
  destruct (draw_toolpath_min_points_monotone [open_path; speck] 2 10
              machine0 pen0 ltac:(lia) ltac:(left; lia))
    as (m1 & m2 & cmds1 & cmds2 & kept1 & kept2 & H1 & H2 & _).
  exists m1, m2. split; [exact H1|]. split; [exact H2|].
  pose proof (f_equal fst H1) as E1. pose proof (f_equal fst H2) as E2.
  cbn [fst] in E1, E2. rewrite <- E1, <- E2. split; reflexivity.
Defined.

(** ** The pipeline as a whole *)

Lemma filter_map_comm {A B} (f : A -> B) (p : B -> bool) l :
  filter p (map f l) = map f (filter (fun a => p (f a)) l).
Proof.
  induction l as [|a l IH]; cbn [map filter]; [reflexivity|].
  destruct (p (f a)); cbn [map]; now rewrite IH.
Qed.

Section PipelineOutcome.
Context {cv : OpenCV}.


(** X10. For an image that loads with a shape [(h, w, ...)], [max(h, w)] not
    zero, [generate_from_image] draws exactly the traced contours of ten
    points or more: in descending order of area, each one scaled point by
    point and closed into a loop; and the text that precedes [MsgDone] gives
    their number. *)
Theorem generate_from_image_draws_large_contours
  img_path canvas_size img h w rest m pen :
  imread img_path = Some img ->
  shape img = h :: w :: rest ->
  Z.max h w <> 0 ->
  exists m' cmds texts,
    generate_from_image img_path canvas_size m = (m', inl tt) /\
    tool m' = tool m ++ cmds /\
    paths (run_tool pen cmds) =
      paths pen
      ++ map (fun c : Contour =>
                closed_loop (map (scale_point h w (scale_of canvas_size h w)) c))
           (filter (fun c => 10 <=? Z.of_nat (length c)) (traced img)) /\
    status m' =
      status m ++ texts
      ++ [MsgDrew (length (filter (fun c => 10 <=? Z.of_nat (length c))
                             (traced img)));
          MsgDone] /\
    Permutation (traced img)
      (findContours_LIST_SIMPLE (edges_of img 50 150)) /\
    StronglySorted (fun a b => (contourArea a >= contourArea b)%Q)
      (traced img).
Proof.
  intros E Hshape Hmax.
  pose proof (scale_coordinates_map (traced img) h w rest canvas_size Hmax)
    as Hs.
  rewrite <- Hshape in Hs.
  set (f := scale_point h w (scale_of canvas_size h w)) in *.
  assert (Hf : filter (passes 10) (map (map f) (traced img)) =
               map (map f)
                 (filter (fun c => 10 <=? Z.of_nat (length c)) (traced img))).
  { rewrite filter_map_comm. f_equal. apply filter_ext. intros c.
    rewrite passes_leb, length_map. reflexivity. }
  assert (Hlen : length (filter (passes 10) (map (map f) (traced img))) =
                 length (filter (fun c => 10 <=? Z.of_nat (length c))
                           (traced img)))
    by (rewrite Hf; apply length_map).
  rewrite (generate_draws _ _ _ _ E Hs m).
  do 2 eexists.
  exists ([MsgLoading; MsgExtracting; MsgRunning]
          ++ progress_msgs 10 (length (map (map f) (traced img)))
               0 (map (map f) (traced img)) 0).
  split; [reflexivity|]. cbn [tool status].
  split; [reflexivity|]. split; [|split; [|split]].
  - rewrite paths_run_toolpath by (apply drawable_filter; left; lia).
    rewrite Hf, map_map. reflexivity.
  - rewrite Hlen, <- !app_assoc. reflexivity.
  - apply (sorted_reverse_perm contourArea Qltb).
  - eapply StronglySorted_weaken;
      [|apply (sorted_reverse_sorted contourArea Qltb Qltb_asym
                 Qltb_nlt_trans)].
    intros a b H. apply key_le_area. exact H.
Qed.

End PipelineOutcome.

(** On the second test double the frame is drawn, scaled by 6 about the
    centre (50, 50); the wedge and the dot are not. *)
Lemma generate_from_image_draws_large_contours_witness :
  exists m' cmds,
    generate_from_image (cv := shapes_cv) "shapes.png" 600%float machine0
      = (m', inl tt) /\
    tool m' = cmds /\
    paths (run_tool pen0 cmds) =
      [[(0%float, 0%float)];
       closed_loop
         (map (fun p : Point =>
                 (((Z2F (fst p) - 50) * 6)%float,
                  ((50 - Z2F (snd p)) * 6)%float)) frame)] /\
    status m' =
      [MsgLoading; MsgExtracting; MsgRunning; MsgDrew 1; MsgDone].
Proof.
  destruct (generate_from_image_draws_large_contours (cv := shapes_cv)
              "shapes.png" 600%float tt 100 100 [3] machine0 pen0
              eq_refl eq_refl ltac:(lia))
    as (m' & cmds & texts & H1 & H2 & H3 & _).
  exists m', cmds. split; [exact H1|]. split; [exact H2|].
  split; [exact H3|].
  pose proof (f_equal (fun r => status (fst r)) H1) as Hst.
  cbn in Hst. symmetry. exact Hst.
Defined.

(** ** The transform is centred *)

Lemma binary_round_canonical s m e :
  Zpos (digits2_pos m) = 53 -> -1074 <= e <= 971 ->
  binary_round prec emax s m e = S754_finite s m e.
Proof.
  intros Hd He. unfold binary_round.
  assert (Hf : fexp prec emax (Zpos (digits2_pos m) + e) = e).
  { unfold fexp, emin, prec, emax. lia. }
  rewrite Hf. unfold shl_align. rewrite Z.sub_diag.
  apply round_aux_canonical; assumption.
Qed.

(** The float of half a positive integer. *)
Lemma Prim2SF_half p :
  Zpos p < 2 ^ 53 ->
  Prim2SF (Z2F (Zpos p) / 2) =
  S754_finite false (norm_mant p) (Zpos (digits2_pos p) - 53 - 1).
Proof.
  intros Hp. rewrite FloatAxioms.div_spec, Prim2SF_Z2F_pos by assumption.
  pose proof (digits2_bound p 53 ltac:(lia) Hp).
  apply halve_canonical; [apply norm_mant_digits; assumption | lia].
Qed.

(** [w - w/2] is [w/2], exactly. *)
Lemma sub_half w :
  0 < w < 2 ^ 53 -> (Z2F w - Z2F w / 2)%float = (Z2F w / 2)%float.
Proof.
  intros Hw. destruct w as [|p|p]; try lia.
  apply Prim2SF_inj. rewrite FloatAxioms.sub_spec.
  rewrite Prim2SF_half, Prim2SF_Z2F_pos by lia.
  pose proof (digits2_bound p 53 ltac:(lia) ltac:(lia)) as Hd.
  pose proof (norm_mant_digits p ltac:(lia)) as Hn.
  set (m := norm_mant p) in *. set (e := Zpos (digits2_pos p) - 53) in *.
  unfold SF64sub, SFsub, shl_align, cond_Zopp.
  replace (Z.min e (e - 1)) with (e - 1) by lia.
  replace (e - 1 - e) with (-1) by lia. rewrite Z.sub_diag.
  cbn [fst Pos.iter].
  replace (Zpos m~0 - Zpos m) with (Zpos m) by lia.
  cbn [binary_normalize]. apply binary_round_canonical; [assumption | lia].
Qed.

(** [h/2 - h] is [-(h/2)], exactly. *)
Lemma half_sub h :
  0 < h < 2 ^ 53 -> (Z2F h / 2 - Z2F h)%float = (- (Z2F h / 2))%float.
Proof.
  intros Hh. destruct h as [|p|p]; try lia.
  apply Prim2SF_inj. rewrite FloatAxioms.sub_spec, FloatAxioms.opp_spec.
  rewrite Prim2SF_half, Prim2SF_Z2F_pos by lia.
  pose proof (digits2_bound p 53 ltac:(lia) ltac:(lia)) as Hd.
  pose proof (norm_mant_digits p ltac:(lia)) as Hn.
  set (m := norm_mant p) in *. set (e := Zpos (digits2_pos p) - 53) in *.
  unfold SF64sub, SFsub, shl_align, cond_Zopp.
  replace (Z.min (e - 1) e) with (e - 1) by lia.
  replace (e - 1 - e) with (-1) by lia. rewrite Z.sub_diag.
  cbn [fst Pos.iter].
  replace (Zpos m - Zpos m~0) with (Zneg m) by lia.
  cbn [binary_normalize SFopp negb].
  apply binary_round_canonical; [assumption | lia].
Qed.

(** [0 - w/2] is [-(w/2)]. *)
Lemma zero_sub_half_opp w :
  0 < w < 2 ^ 53 -> (Z2F 0 - Z2F w / 2)%float = (- (Z2F w / 2))%float.
Proof.
  intros Hw. destruct w as [|p|p]; try lia.
  apply Prim2SF_inj. rewrite FloatAxioms.sub_spec, FloatAxioms.opp_spec.
  rewrite Prim2SF_half by lia. reflexivity.
Qed.

Lemma binary_round_aux_opp s m e l :
  binary_round_aux prec emax (negb s) m e l =
  SFopp (binary_round_aux prec emax s m e l).
Proof.
  unfold binary_round_aux.
  destruct (shr_fexp prec emax m e l) as [mrs' e'].
  destruct (shr_fexp prec emax _ e' loc_Exact) as [mrs'' e''].
  destruct (shr_m mrs''); [reflexivity | | reflexivity].
  destruct (e'' <=? emax - prec); reflexivity.
Qed.

(** Changing the sign of a factor changes the sign of the product. *)
Lemma mul_opp_l a s : (- a * s)%float = (- (a * s))%float.
Proof.
  apply Prim2SF_inj.
  rewrite FloatAxioms.mul_spec, !FloatAxioms.opp_spec, FloatAxioms.mul_spec.
  destruct (Prim2SF a) as [sa|sa| |sa ma ea];
    destruct (Prim2SF s) as [ss|ss| |ss ms es];
    try reflexivity;
    try (destruct sa, ss; reflexivity).
  unfold SF64mul, SFmul. cbn [SFopp].
  replace (xorb (negb sa) ss) with (negb (xorb sa ss))
    by (destruct sa, ss; reflexivity).
  apply binary_round_aux_opp.
Qed.

(** X11. The transform of [scale_coordinates] is centred on the middle of the
    image: the corner [(w, h)] opposite to [(0, 0)] goes to the point
    opposite to the image of [(0, 0)], exactly, whatever the scale; and these
    two images are [(-(w/2) * scale, (h/2) * scale)] and
    [((w/2) * scale, -((h/2) * scale))]. *)
Theorem scale_coordinates_opposite_corners h w rest canvas_size :
  0 < w < 2 ^ 53 -> 0 < h < 2 ^ 53 ->
  exists tx ty,
    scale_coordinates [[(0, 0); (w, h)]] (h :: w :: rest) canvas_size =
      inl [[(tx, ty); ((- tx)%float, (- ty)%float)]] /\
    (- tx)%float = (Z2F w / 2 * scale_of canvas_size h w)%float /\
    ty = (Z2F h / 2 * scale_of canvas_size h w)%float.
Proof.
  intros Hw Hh.
  rewrite scale_coordinates_map by lia. cbn [map].
  unfold scale_point.
  rewrite sub_half, half_sub, sub_zero_r, zero_sub_half_opp by assumption.
  rewrite !mul_opp_l.
  do 2 eexists. split; [|split]; [| |reflexivity].
  - f_equal. f_equal. f_equal. f_equal.
    f_equal. symmetry. apply Prim2SF_inj. rewrite !FloatAxioms.opp_spec.
    destruct (Prim2SF _) as [[|]|[|]| |[|] ? ?]; reflexivity.
  - apply Prim2SF_inj. rewrite !FloatAxioms.opp_spec.
    destruct (Prim2SF _) as [[|]|[|]| |[|] ? ?]; reflexivity.
Qed.

(** An image of 640x480 pixels on a canvas of 600 units. *)
Lemma scale_coordinates_opposite_corners_witness :
  scale_coordinates [[(0, 0); (640, 480)]] [480; 640; 3] 600%float =
  inl [[((-300)%float, 225%float); (300%float, (-225)%float)]].
Proof.
  destruct (scale_coordinates_opposite_corners 480 640 [3] 600%float
              ltac:(lia) ltac:(lia)) as (tx & ty & H1 & _).
  rewrite H1.
  assert (E : @inl (list ScaledContour) Exn
                [[(tx, ty); ((- tx)%float, (- ty)%float)]] =
              scale_coordinates [[(0, 0); (640, 480)]] [480; 640; 3]
                600%float) by (symmetry; exact H1).
  cbn in E. injection E as -> ->. reflexivity.
Defined.
